(** * Virus mutation simulator: a shallow embedding of [simu.py]

    The development follows the script top-down: the Python values and the
    exceptions the script can meet, the random source of the [random]
    module, the three functions [generate_genome], [mutate_genome] and
    [simulate_generations], and then the body of the "Run Simulation"
    button (the precaution tier and the re-simulation after precautions),
    without its display calls.  The predicates used to state the
    properties come next, then the lemmas, then the properties of the
    specification, C1 to C10.

    Conventions.
    - A Python [str] is the list of its characters ([list ascii]).
    - A Python [int] is a [Z]; [//] is [Z.div] (both round towards minus
      infinity) and raises [ZeroDivisionError] on a zero divisor.
    - A Python [float] is a binary64 primitive float; the literals of the
      script are written in hexadecimal so that no rounding is hidden.
    - [range(n)] runs [Z.to_nat n] times and [[x] * n] is
      [repeat x (Z.to_nat n)]: both are empty for [n <= 0].
    - A call either returns a value or raises: [res].
    - A function that draws random numbers takes the state of the random
      source and returns the new one: [Rand]. *)

From Stdlib Require Import ZArith List Bool Lia Ascii String Floats.
From Stdlib Require Import DecimalString.
Import ListNotations.

Set Implicit Arguments.

Open Scope Z_scope.

(** ** Python values *)

(** The exceptions that the operations used by the script can raise:
    indexing a list out of range ([seq[-1]] on an empty list,
    [random.choice] on an empty sequence) and [//] by zero. *)
Inductive exn : Type :=
| IndexError
| ZeroDivisionError.

Inductive res (A : Type) : Type :=
| Ok (a : A)
| Raise (e : exn).

Arguments Ok {A} a.
Arguments Raise {A} e.

Definition res_bind {A B : Type} (r : res A) (k : A -> res B) : res B :=
  match r with
  | Ok a => k a
  | Raise e => Raise e
  end.

(** [raises r]: the call did not return. *)
Definition raises {A : Type} (r : res A) : Prop := exists e, r = Raise e.

(** The value a call returned, if it did. *)
Definition returned {A S : Type} (r : res (A * S)) : option A :=
  match r with
  | Ok (a, _) => Some a
  | Raise _ => None
  end.

(** [seq[-1]] *)
Definition last_item {A : Type} (seq : list A) : res A :=
  match rev seq with
  | [] => Raise IndexError
  | x :: _ => Ok x
  end.

(** [a // b] on ints *)
Definition floordiv (a b : Z) : res Z :=
  if b =? 0 then Raise ZeroDivisionError else Ok (a / b).

(** [max(a, b)] on floats: the builtin keeps its first argument unless the
    second is strictly greater. *)
Definition float_max (a b : float) : float :=
  if (a <? b)%float then b else a.

(** [float(n)] as done by [n * x] for an int [n] and a float [x]: the
    nearest binary64, ties to even.  (CPython raises [OverflowError] where
    this gives an infinity, from 2^1024 - 2^970 on; a genome of that many
    bases cannot exist.) *)
Definition float_of_int (n : Z) : float :=
  SF2Prim (binary_normalize prec emax n 0 false).

(** [n > x] for an int [n] and a float [x]: Python compares the exact
    values, without rounding [n]. *)
Definition int_gt_float (n : Z) (x : float) : bool :=
  match Prim2SF x with
  | S754_nan => false
  | S754_infinity negative => negative
  | S754_zero _ => 0 <? n
  | S754_finite negative m e =>
      let v := if negative then Z.neg m else Z.pos m in
      if 0 <=? e then v * 2 ^ e <? n else v <? n * 2 ^ (- e)
  end.

(** The float literals of the script. *)
Module Lit.
Definition f0_01 : float := 0x1.47ae147ae147bp-7%float.
Definition f0_15 : float := 0x1.3333333333333p-3%float.
Definition f0_3 : float := 0x1.3333333333333p-2%float.
Definition f0_5 : float := 0x1p-1%float.
Definition f0_7 : float := 0x1.6666666666666p-1%float.
End Lit.

(** [0.0 <= x <= 1.0], the range of the "Mutation Rate" slider. *)
Definition unit_rate (x : float) : Prop :=
  (0 <=? x)%float = true /\ (x <=? 1)%float = true.

(** ** The random source

    The [random] module is outside the script.  It is taken as an
    interface with the two draws the script relies on and their documented
    ranges: [random.random()] returns a float [0.0 <= x < 1.0], and an
    index drawn for a sequence of [n > 0] items is below [n]. *)
Class RandomSource (G : Type) : Type := {
  random : G -> float * G;
  randbelow : nat -> G -> nat * G;
  random_range : forall g,
    (0 <=? fst (random g))%float = true /\ (fst (random g) <? 1)%float = true;
  randbelow_range : forall n g, (0 < n)%nat -> (fst (randbelow n g) < n)%nat
}.

(** A scripted source: the list holds the raw draws still to come, and an
    exhausted list keeps answering with the draw 0. *)
Module Scripted.
Definition level (raw : nat) : float :=
  match (raw mod 4)%nat with
  | O => 0%float
  | 1%nat => 0x1p-3%float
  | 2%nat => 0x1p-1%float
  | _ => 0x1.ep-1%float
  end.

Definition random (g : list nat) : float * list nat :=
  match g with
  | [] => (level 0, [])
  | raw :: g' => (level raw, g')
  end.

Definition randbelow (n : nat) (g : list nat) : nat * list nat :=
  match g with
  | [] => (0, [])%nat
  | raw :: g' => ((raw mod n)%nat, g')
  end.

End Scripted.

(** The scripted source keeps the documented ranges. *)
#[export, refine] Instance scripted_source : RandomSource (list nat) := {|
  random := Scripted.random;
  randbelow := Scripted.randbelow
|}.
Proof.
  - intros [|raw g']; cbn [Scripted.random fst]; unfold Scripted.level;
      [|destruct (raw mod 4)%nat as [|[|[|k]]]]; split; reflexivity.
  - intros n [|raw g'] Hn; cbn [Scripted.randbelow fst]; [exact Hn|].
    apply Nat.mod_upper_bound. intros Hz. rewrite Hz in Hn.
    exact (Nat.lt_irrefl _ Hn).
Defined.

(** ** Computations that draw random numbers and may raise *)

Definition Rand (G A : Type) : Type := G -> res (A * G).

Definition ret {G A : Type} (a : A) : Rand G A := fun g => Ok (a, g).

Definition bind {G A B : Type} (m : Rand G A) (k : A -> Rand G B) : Rand G B :=
  fun g =>
    match m g with
    | Ok (a, g') => k a g'
    | Raise e => Raise e
    end.

Definition lift {G A : Type} (r : res A) : Rand G A :=
  fun g =>
    match r with
    | Ok a => Ok (a, g)
    | Raise e => Raise e
    end.

Declare Scope rand_scope.
Delimit Scope rand_scope with rand.
Notation "x <- m ;; k" := (bind m (fun x => k))
  (at level 61, m at next level, right associativity) : rand_scope.
Notation "' p <- m ;; k" := (bind m (fun x => let p := x in k))
  (at level 61, p pattern, m at next level, right associativity) : rand_scope.

(** ** The script *)

(** A Python [str]. *)
Definition str : Type := list ascii.

(** [BASES = ['A', 'T', 'C', 'G']] *)
Definition BASES : list ascii := ["A"; "T"; "C"; "G"]%char.

(** [[b for b in BASES if b != base]] *)
Definition other_bases (base : ascii) : list ascii :=
  filter (fun b => negb (Ascii.eqb b base)) BASES.

Section Script.
Context {G : Type} {RS : RandomSource G}.
Local Open Scope rand_scope.

(** [random.random()] *)
Definition py_random : Rand G float := fun g => Ok (random g).

(** [random.choice(seq)]: [IndexError] on an empty sequence. *)
Definition py_choice {A : Type} (seq : list A) : Rand G A :=
  fun g =>
    match seq with
    | [] => Raise IndexError
    | _ :: _ =>
        let (i, g') := randbelow (List.length seq) g in
        match nth_error seq i with
        | Some x => Ok (x, g')
        | None => Raise IndexError
        end
    end.

(** [random.choices(population, k=k)]: [k] items drawn with replacement,
    none for [k <= 0]. *)
Fixpoint py_choices_loop {A : Type} (population : list A) (k : nat)
  : Rand G (list A) :=
  match k with
  | O => ret []
  | S k' =>
      x <- py_choice population ;;
      xs <- py_choices_loop population k' ;;
      ret (x :: xs)
  end.

Definition py_choices {A : Type} (population : list A) (k : Z)
  : Rand G (list A) :=
  py_choices_loop population (Z.to_nat k).

(** [def generate_genome(length=50)] *)
Definition generate_genome (length : Z) : Rand G str :=
  py_choices BASES length.

(** The body of [for base in genome] in [mutate_genome], with the
    accumulator [mutated]. *)
Fixpoint mutate_loop (mutation_rate : float) (rest : str)
    (mutated : str) : Rand G str :=
  match rest with
  | [] => ret mutated
  | base :: rest' =>
      u <- py_random ;;
      if (u <? mutation_rate)%float then
        let choices := other_bases base in
        c <- py_choice choices ;;
        mutate_loop mutation_rate rest' (mutated ++ [c])
      else
        mutate_loop mutation_rate rest' (mutated ++ [base])
  end.

(** [def mutate_genome(genome, mutation_rate=0.05)] *)
Definition mutate_genome (genome : str) (mutation_rate : float)
  : Rand G str :=
  mutate_loop mutation_rate genome [].

(** [sum(1 for a, b in zip(current_genome, new_genome) if a != b)] *)
Definition diff_count (current_genome new_genome : str) : Z :=
  Z.of_nat
    (List.length
       (filter (fun ab => negb (Ascii.eqb (fst ab) (snd ab)))
          (combine current_genome new_genome))).

(** The body of [for _ in range(generations)] in
    [simulate_generations]. *)
Fixpoint simulate_loop (rounds : nat) (mutation_rate : float)
    (current_genome : str) (genomes : list str) (mutations : list Z)
  : Rand G (list str * list Z) :=
  match rounds with
  | O => ret (genomes, mutations)
  | S rounds' =>
      new_genome <- mutate_genome current_genome mutation_rate ;;
      let diff := diff_count current_genome new_genome in
      prev <- lift (last_item mutations) ;;
      simulate_loop rounds' mutation_rate new_genome
        (genomes ++ [new_genome]) (mutations ++ [prev + diff])
  end.

(** [def simulate_generations(initial_genome, generations=20,
    mutation_rate=0.05)] *)
Definition simulate_generations (initial_genome : str)
    (generations : Z) (mutation_rate : float)
  : Rand G (list str * list Z) :=
  simulate_loop (Z.to_nat generations) mutation_rate initial_genome
    [initial_genome] [0].


(** *** The "Run Simulation" button *)

Inductive precaution_level : Type :=
| High
| Moderate
| Low.

(** Lines 73-111: the tier and the new mutation rate ([if] / [elif] /
    [else] on [mutation_total], [mutation_rate] and the two thresholds). *)
Definition precaution (mutation_total : Z) (mutation_rate : float)
    (length : Z) : precaution_level * float :=
  let high_threshold := (float_of_int length * Lit.f0_7)%float in
  let moderate_threshold := (float_of_int length * Lit.f0_3)%float in
  if int_gt_float mutation_total high_threshold
     || (Lit.f0_3 <? mutation_rate)%float
  then (High, float_max Lit.f0_01 (mutation_rate * Lit.f0_5)%float)
  else if int_gt_float mutation_total moderate_threshold
          || (Lit.f0_15 <? mutation_rate)%float
  then (Moderate, float_max Lit.f0_01 (mutation_rate * Lit.f0_7)%float)
  else (Low, mutation_rate).

(** [new_mutation_rate != mutation_rate] *)
Definition rate_changed (new_mutation_rate mutation_rate : float) : bool :=
  negb (new_mutation_rate =? mutation_rate)%float.

(** The variables of the re-simulation (lines 114-137). *)
Record adjusted_run : Type := {
  genomes2 : list str;
  mutations2 : list Z;
  plateau_genomes : list str;
  plateau_mutations : list Z;
  decrease_genomes : list str;
  decrease_mutations : list Z
}.

(** [all_mutations2 = mutations2 + plateau_mutations + decrease_mutations] *)
Definition all_mutations2 (r : adjusted_run) : list Z :=
  (mutations2 r ++ plateau_mutations r) ++ decrease_mutations r.

(** [all_genomes2 = genomes2 + plateau_genomes + decrease_genomes] *)
Definition all_genomes2 (r : adjusted_run) : list str :=
  (genomes2 r ++ plateau_genomes r) ++ decrease_genomes r.

(** The body of [for i in range(repair_gens - len(plateau_mutations))]. *)
Fixpoint decrease_loop (rounds : nat) (plateau_mutation repair_gens : Z)
    (genomes2 : list str) (current_mutation : Z)
    (decrease_mutations : list Z) (decrease_genomes : list str)
  : res (list Z * list str) :=
  match rounds with
  | O => Ok (decrease_mutations, decrease_genomes)
  | S rounds' =>
      res_bind (floordiv plateau_mutation repair_gens) (fun step =>
      let current_mutation := Z.max 0 (current_mutation - Z.max 1 step) in
      res_bind (last_item genomes2) (fun held =>
      decrease_loop rounds' plateau_mutation repair_gens genomes2
        current_mutation (decrease_mutations ++ [current_mutation])
        (decrease_genomes ++ [held])))
  end.

(** Lines 116-137: the run after precautions. *)
Definition simulate_after_precaution (initial_genome : str)
    (generations : Z) (new_mutation_rate : float) : Rand G adjusted_run :=
  let plateau_gens := generations / 2 in
  let repair_gens := generations - plateau_gens in
  ' (genomes2, mutations2) <-
      simulate_generations initial_genome plateau_gens new_mutation_rate ;;
  plateau_mutation <- lift (last_item mutations2) ;;
  held <- lift (last_item genomes2) ;;
  let plateau_genomes := repeat held (Z.to_nat (repair_gens / 2)) in
  let plateau_mutations :=
    repeat plateau_mutation (Z.to_nat (repair_gens / 2)) in
  ' (decrease_mutations, decrease_genomes) <-
      lift (decrease_loop
              (Z.to_nat
                 (repair_gens - Z.of_nat (List.length plateau_mutations)))
              plateau_mutation repair_gens genomes2 plateau_mutation [] []) ;;
  ret {| genomes2 := genomes2;
         mutations2 := mutations2;
         plateau_genomes := plateau_genomes;
         plateau_mutations := plateau_mutations;
         decrease_genomes := decrease_genomes;
         decrease_mutations := decrease_mutations |}.

(** What one click on "Run Simulation" computes. *)
Record simulation : Type := {
  initial_genome : str;
  genomes : list str;
  mutations : list Z;
  level : precaution_level;
  new_mutation_rate : float;
  after_precaution : option adjusted_run
}.

(** Lines 55-137, without the display calls. *)
Definition run_simulation (length : Z) (mutation_rate : float)
    (generations : Z) : Rand G simulation :=
  initial_genome <- generate_genome length ;;
  ' (genomes, mutations) <-
      simulate_generations initial_genome generations mutation_rate ;;
  mutation_total <- lift (last_item mutations) ;;
  let (precaution_level, new_mutation_rate) :=
    precaution mutation_total mutation_rate length in
  if rate_changed new_mutation_rate mutation_rate then
    adjusted <-
      simulate_after_precaution initial_genome generations new_mutation_rate ;;
    ret {| initial_genome := initial_genome;
           genomes := genomes;
           mutations := mutations;
           level := precaution_level;
           new_mutation_rate := new_mutation_rate;
           after_precaution := Some adjusted |}
  else
    ret {| initial_genome := initial_genome;
           genomes := genomes;
           mutations := mutations;
           level := precaution_level;
           new_mutation_rate := new_mutation_rate;
           after_precaution := None |}.

End Script.

(** *** The "All Genomes by Generation" expander *)

(** [f"{i:02}"] for an index of [enumerate]: the decimal digits of [i],
    filled with zeros on the left up to two characters. *)
Definition format_02 (i : nat) : str :=
  let digits :=
    list_ascii_of_string (NilEmpty.string_of_uint (Nat.to_uint i)) in
  repeat "0"%char (2 - List.length digits) ++ digits.

(** [f"Gen {i:02}: {g}"] *)
Definition genome_line (i : nat) (g : str) : str :=
  list_ascii_of_string "Gen " ++ format_02 i ++ list_ascii_of_string ": " ++ g.

(** [enumerate(genomes)] counting from [start]. *)
Fixpoint enumerate_from {A : Type} (start : nat) (l : list A)
  : list (nat * A) :=
  match l with
  | [] => []
  | x :: l' => (start, x) :: enumerate_from (S start) l'
  end.

(** Lines 153-154 and 158-159: the texts passed to [st.text], in order. *)
Definition genome_lines (genomes : list str) : list str :=
  List.map (fun ig => genome_line (fst ig) (snd ig))
    (enumerate_from 0 genomes).

(** ** Predicates of the specification *)

(** A sequence over the alphabet. *)
Definition over_alphabet (s : str) : Prop := Forall (fun c => In c BASES) s.

(** What the loop body does to one base: the draw [u] is not below the
    rate and the base is kept, or it is below the rate and the base is
    replaced by one of [other_bases]. *)
Inductive base_step (mutation_rate : float) (base : ascii) : ascii -> Prop :=
| base_kept (u : float) :
    (0 <=? u)%float = true -> (u <? 1)%float = true ->
    (u <? mutation_rate)%float = false ->
    base_step mutation_rate base base
| base_replaced (u : float) (c : ascii) :
    (0 <=? u)%float = true -> (u <? 1)%float = true ->
    (u <? mutation_rate)%float = true ->
    In c (other_bases base) ->
    base_step mutation_rate base c.

(** [new] is what one call of [mutate_genome] can return on [old]. *)
Definition mutation_of (mutation_rate : float) (old new : str) : Prop :=
  Forall2 (base_step mutation_rate) old new.

(** The count of differing positions of two sequences of one length, in
    the words of the specification: the positions [i] whose symbols
    differ. *)
Definition hamming_distance (a b : str) : Z :=
  Z.of_nat
    (List.length
       (filter
          (fun i => negb (Ascii.eqb (nth i a Ascii.zero) (nth i b Ascii.zero)))
          (seq 0 (List.length a)))).

(** [rounds_from rate cur last hs ts]: [hs] and [ts] are what successive
    loop iterations append to [genomes] and [mutations] when the current
    genome is [cur] and the last entry of [mutations] is [last]. *)
Inductive rounds_from (mutation_rate : float)
  : str -> Z -> list str -> list Z -> Prop :=
| rounds_done (cur : str) (last : Z) :
    rounds_from mutation_rate cur last [] []
| rounds_next (cur : str) (last : Z) (new : str) (hs : list str)
    (ts : list Z) :
    mutation_of mutation_rate cur new ->
    rounds_from mutation_rate new (last + diff_count cur new) hs ts ->
    rounds_from mutation_rate cur last (new :: hs)
      ((last + diff_count cur new) :: ts).

(** No entry of [l] is above a later one. *)
Definition nondecreasing (l : list Z) : Prop :=
  forall i j, (i <= j < List.length l)%nat -> nth i l 0 <= nth j l 0.

(** [decay_from step current ds]: every entry of [ds] is the entry before
    it ([current] for the first) less [step], and 0 where that would be
    negative. *)
Fixpoint decay_from (step current : Z) (ds : list Z) : Prop :=
  match ds with
  | [] => True
  | d :: ds' => d = Z.max 0 (current - step) /\ decay_from step d ds'
  end.

(** What [simulate_after_precaution] returns: the active run [hs], [ts]
    of [generations // 2] rounds, then the plateau holding its last genome
    [held] and last count [peak], then the decay. *)
Inductive adjusted_ok (initial : str) (generations : Z) (rate : float)
    (r : adjusted_run) : Prop :=
| adjusted_ok_intro (hs : list str) (ts : list Z) (held : str) (peak : Z) :
    genomes2 r = initial :: hs ->
    mutations2 r = 0 :: ts ->
    rounds_from rate initial 0 hs ts ->
    List.length hs = Z.to_nat (generations / 2) ->
    last_item (genomes2 r) = Ok held ->
    last_item (mutations2 r) = Ok peak ->
    plateau_genomes r
    = repeat held (Z.to_nat ((generations - generations / 2) / 2)) ->
    plateau_mutations r
    = repeat peak (Z.to_nat ((generations - generations / 2) / 2)) ->
    decrease_genomes r = repeat held (List.length (decrease_mutations r)) ->
    List.length (decrease_mutations r)
    = Z.to_nat
        (generations - generations / 2
         - Z.of_nat (Z.to_nat ((generations - generations / 2) / 2))) ->
    decay_from (Z.max 1 (peak / (generations - generations / 2))) peak
      (decrease_mutations r) ->
    adjusted_ok initial generations rate r.

(** What [run_simulation] returns: a generated genome, its run, the tier
    read from the last count, and the run after precautions exactly when
    the rate changed. *)
Inductive simulation_ok (length : Z) (rate : float) (generations : Z)
    (out : simulation) : Prop :=
| simulation_ok_intro (hs : list str) (ts : list Z) (total : Z) :
    List.length (initial_genome out) = Z.to_nat length ->
    over_alphabet (initial_genome out) ->
    genomes out = initial_genome out :: hs ->
    mutations out = 0 :: ts ->
    rounds_from rate (initial_genome out) 0 hs ts ->
    List.length hs = Z.to_nat generations ->
    last_item (mutations out) = Ok total ->
    (level out, new_mutation_rate out) = precaution total rate length ->
    match after_precaution out with
    | Some r =>
        rate_changed (new_mutation_rate out) rate = true
        /\ adjusted_ok (initial_genome out) generations
             (new_mutation_rate out) r
    | None => rate_changed (new_mutation_rate out) rate = false
    end ->
    simulation_ok length rate generations out.

(** [x > p / q] on the exact value of the float [x], for [q > 0]. *)
Definition float_gt_ratio (x : float) (p q : Z) : bool :=
  match Prim2SF x with
  | S754_nan => false
  | S754_infinity negative => negb negative
  | S754_zero _ => p <? 0
  | S754_finite negative m e =>
      let v := if negative then Z.neg m else Z.pos m in
      if 0 <=? e then p <? q * (v * 2 ^ e) else p * 2 ^ (- e) <? q * v
  end.

(** The lengths up to 200 at which the binary64 product [length * 0.7] is
    below seven tenths of the length: [90 * 0.7], [170 * 0.7] and
    [180 * 0.7] are [62.99999999999999], [118.99999999999999] and
    [125.99999999999999]. *)
Definition rounded_down_lengths : list Z := [90; 170; 180].

(** The least mutation total above [length * 0.7], and above
    [length * 0.3], for a length up to 200. *)
Definition high_cut (length : Z) : Z :=
  if existsb (Z.eqb length) rounded_down_lengths
  then 7 * length / 10
  else 7 * length / 10 + 1.

Definition moderate_cut (length : Z) : Z := 3 * length / 10 + 1.

(** The tiers in order of severity. *)
Definition tier_rank (tier : precaution_level) : nat :=
  match tier with
  | Low => 0
  | Moderate => 1
  | High => 2
  end.

(** The width of ["Gen {i:02}: "]: 8 characters up to generation 99, 9
    from generation 100 to 999. *)
Definition line_prefix_width (i : nat) : nat :=
  if (i <? 100)%nat then 8%nat else 9%nat.

(** What [rounds] iterations of the loop of [simulate_generations] append
    to [genomes] and to [mutations] when the current genome is [cur] and
    the last count is [last]. *)
Fixpoint appended_rounds {G : Type} {RS : RandomSource G} (rounds : nat)
    (mutation_rate : float) (cur : str) (last : Z)
  : Rand G (list str * list Z) :=
  match rounds with
  | O => ret ([], [])
  | S rounds' =>
      bind (mutate_genome cur mutation_rate) (fun new =>
      let count := last + diff_count cur new in
      bind (appended_rounds rounds' mutation_rate new count) (fun rest =>
      ret (new :: fst rest, count :: snd rest)))
  end.

(** ** Sample inputs *)

Definition acgt : str := list_ascii_of_string "ACGTACGT".

(** Two hundred raw draws for the scripted source. *)
Definition draws : list nat :=
  List.map (fun i => ((i * i + 3 * i + 7) mod 23)%nat) (seq 0 200).

(** * Properties *)

(** ** Floats *)

Lemma float_not_below_zero (u : float) :
  (0 <=? u)%float = true -> (u <? 0)%float = false.
Proof.
  rewrite leb_spec, ltb_spec.
  change (Prim2SF 0) with (S754_zero false).
  destruct (Prim2SF u) as [s | s | | s m e]; try destruct s; cbn; congruence.
Qed.

Lemma SFcompare_refl (x : spec_float) :
  x <> S754_nan -> SFcompare x x = Some Eq.
Proof.
  destruct x as [s | s | | s m e]; intros Hx; cbn.
  - reflexivity.
  - destruct s; reflexivity.
  - congruence.
  - rewrite Z.compare_refl.
    change (PosDef.Pos.compare_cont Eq m m) with (Pos.compare m m).
    rewrite Pos.compare_refl. destruct s; reflexivity.
Qed.

Lemma float_eqb_refl (x : float) :
  (0 <=? x)%float = true -> (x =? x)%float = true.
Proof.
  rewrite leb_spec, eqb_spec. intros Hx. unfold SFeqb.
  rewrite SFcompare_refl; [reflexivity|].
  intros Hnan. rewrite Hnan in Hx.
  destruct (Prim2SF 0) as [s | s | | s m e]; discriminate Hx.
Qed.

(** ** Comparisons with floats *)

Lemma int_gt_float_mono (n n' : Z) (x : float) :
  n <= n' -> int_gt_float n x = true -> int_gt_float n' x = true.
Proof.
  intros Hle. unfold int_gt_float.
  destruct (Prim2SF x) as [s | s | | s m e]; try (intros H; exact H).
  - rewrite !Z.ltb_lt. lia.
  - cbv zeta. destruct (0 <=? e) eqn:He; rewrite !Z.ltb_lt; [lia|].
    apply Z.leb_gt in He.
    assert (Hpow : 0 < 2 ^ (- e)) by (apply Z.pow_pos_nonneg; lia).
    nia.
Qed.

Lemma float_ltb_leb (a b : float) :
  (a <? b)%float = true -> (a <=? b)%float = true.
Proof.
  rewrite ltb_spec, leb_spec. unfold SFltb, SFleb.
  destruct (SFcompare (Prim2SF a) (Prim2SF b)) as [[| |]|]; congruence.
Qed.

Lemma float_max_floor (a b : float) :
  (a <=? a)%float = true -> (a <=? float_max a b)%float = true.
Proof.
  intros Ha. unfold float_max.
  destruct (a <? b)%float eqn:Hab; [exact (@float_ltb_leb a b Hab)|exact Ha].
Qed.

Lemma digits2_pos_bounds (m : positive) :
  2 ^ (Z.pos (digits2_pos m) - 1) <= Z.pos m < 2 ^ Z.pos (digits2_pos m).
Proof.
  induction m as [m IH | m IH |]; cbn [digits2_pos].
  - rewrite Pos2Z.inj_succ, (Pos2Z.inj_xI m).
    replace (Z.succ (Z.pos (digits2_pos m)) - 1)
      with (Z.succ (Z.pos (digits2_pos m) - 1)) by lia.
    rewrite !Z.pow_succ_r by lia.
    generalize dependent (2 ^ (Z.pos (digits2_pos m) - 1)).
    generalize dependent (2 ^ Z.pos (digits2_pos m)). intros; lia.
  - rewrite Pos2Z.inj_succ, (Pos2Z.inj_xO m).
    replace (Z.succ (Z.pos (digits2_pos m)) - 1)
      with (Z.succ (Z.pos (digits2_pos m) - 1)) by lia.
    rewrite !Z.pow_succ_r by lia.
    generalize dependent (2 ^ (Z.pos (digits2_pos m) - 1)).
    generalize dependent (2 ^ Z.pos (digits2_pos m)). intros; lia.
  - split; [reflexivity|reflexivity].
Qed.

Lemma bounded_mantissa (m : positive) (e : Z) :
  bounded prec emax m e = true ->
  -1074 <= e
  /\ Z.pos m < 9007199254740992
  /\ (-1074 < e -> 4503599627370496 <= Z.pos m).
Proof.
  unfold bounded, canonical_mantissa, fexp, emin.
  change prec with 53. change emax with 1024.
  rewrite andb_true_iff, Z.eqb_eq. intros [Hcanon _].
  pose proof (digits2_pos_bounds m) as [Hlow Hhigh].
  set (d := Z.pos (digits2_pos m)) in *.
  assert (Hd : 0 < d) by (unfold d; lia).
  assert (Hd53 : d <= 53) by lia.
  split; [lia|]. split.
  - apply Z.lt_le_trans with (1 := Hhigh).
    change 9007199254740992 with (2 ^ 53).
    apply Z.pow_le_mono_r; lia.
  - intros He. assert (Hd' : d = 53) by lia.
    rewrite Hd' in Hlow. exact Hlow.
Qed.

Lemma float_ltb_literal_exact (lit rate : float) (m0 : positive) (e0 p q : Z) :
  Prim2SF lit = S754_finite false m0 e0 ->
  -1074 < e0 < 0 ->
  0 < p -> 0 < q ->
  q * Z.pos m0 <= p * 2 ^ (- e0) < q * (Z.pos m0 + 1) ->
  ((lit <? rate)%float = true <-> float_gt_ratio rate p q = true).
Proof.
  intros Hlit He0 Hp Hq Hnear.
  pose proof (Prim2SF_valid lit) as Hvlit. rewrite Hlit in Hvlit.
  apply bounded_mantissa in Hvlit. destruct Hvlit as (_ & Hm0hi & Hm0lo).
  specialize (Hm0lo ltac:(lia)).
  assert (HP0 : 2 <= 2 ^ (- e0)).
  { change 2 with (2 ^ 1) at 1. apply Z.pow_le_mono_r; lia. }
  rewrite ltb_spec, Hlit. unfold SFltb, float_gt_ratio.
  pose proof (Prim2SF_valid rate) as Hvalid.
  destruct (Prim2SF rate) as [s | s | | s m e].
  - cbn. rewrite (proj2 (Z.ltb_ge p 0)) by lia. split; discriminate.
  - cbn. destruct s; cbn; split; congruence.
  - cbn. split; discriminate.
  - apply bounded_mantissa in Hvalid. destruct Hvalid as (He & Hmhi & Hmlo).
    cbv zeta. destruct s.
    + cbn [SFcompare].
      destruct (0 <=? e) eqn:Hsign.
      * apply Z.leb_le in Hsign.
        assert (Hpow : 0 < 2 ^ e) by (apply Z.pow_pos_nonneg; lia).
        rewrite (proj2 (Z.ltb_ge p (q * (Z.neg m * 2 ^ e)))) by nia.
        split; discriminate.
      * apply Z.leb_gt in Hsign.
        assert (Hpow : 0 < 2 ^ (- e)) by (apply Z.pow_pos_nonneg; lia).
        rewrite (proj2 (Z.ltb_ge (p * 2 ^ (- e)) (q * Z.neg m))) by nia.
        split; discriminate.
    + cbn [SFcompare].
      change (PosDef.Pos.compare_cont Eq m0 m) with (Pos.compare m0 m).
      destruct (Z.compare_spec e0 e) as [Heq | Hlt | Hgt].
      * subst e. rewrite (proj2 (Z.leb_gt 0 e0)) by lia.
        rewrite Z.ltb_lt.
        destruct (Pos.compare_spec m0 m) as [Hm | Hm | Hm].
        -- subst m. split; [discriminate|]. intros Hx. nia.
        -- split; [intros _|reflexivity].
           assert (Z.pos m0 + 1 <= Z.pos m) by lia. nia.
        -- split; [discriminate|]. intros Hx.
           assert (Z.pos m + 1 <= Z.pos m0) by lia. nia.
      * specialize (Hmlo ltac:(lia)). split; [intros _|reflexivity].
        destruct (0 <=? e) eqn:Hsign.
        -- apply Z.leb_le in Hsign. apply Z.ltb_lt.
           assert (Hpow : 1 <= 2 ^ e)
             by (change 1 with (2 ^ 0) at 1; apply Z.pow_le_mono_r; lia).
           generalize dependent (2 ^ (- e0)). generalize dependent (2 ^ e).
           intros pe Hpe p0 Hnear Hp0.
           assert (H1 : 2 * p <= p * p0) by nia.
           assert (H2 : q * (Z.pos m0 + 1) <= q * 9007199254740992) by nia.
           assert (H3 : q * 4503599627370496 <= q * Z.pos m) by nia.
           assert (H4 : q * Z.pos m <= q * (Z.pos m * pe)) by nia.
           lia.
        -- apply Z.leb_gt in Hsign. apply Z.ltb_lt.
           assert (Hsplit : 2 ^ (- e0) = 2 ^ (- e) * 2 ^ (e - e0)).
           { rewrite <- Z.pow_add_r by lia. f_equal. lia. }
           assert (Hgap : 2 <= 2 ^ (e - e0))
             by (change 2 with (2 ^ 1) at 1; apply Z.pow_le_mono_r; lia).
           assert (Hpow : 0 < 2 ^ (- e)) by (apply Z.pow_pos_nonneg; lia).
           rewrite Hsplit in Hnear.
           generalize dependent (2 ^ (- e)).
           generalize dependent (2 ^ (e - e0)).
           intros. nia.
      * rewrite (proj2 (Z.leb_gt 0 e)) by lia.
        split; [discriminate|]. rewrite Z.ltb_lt. intros Hx.
        assert (Hsplit : 2 ^ (- e) = 2 ^ (- e0) * 2 ^ (e0 - e)).
        { rewrite <- Z.pow_add_r by lia. f_equal. lia. }
        assert (Hgap : 2 <= 2 ^ (e0 - e))
          by (change 2 with (2 ^ 1) at 1; apply Z.pow_le_mono_r; lia).
        rewrite Hsplit in Hx.
        generalize dependent (2 ^ (- e0)). generalize dependent (2 ^ (e0 - e)).
        intros. nia.
Qed.

(** The literals 0.3 and 0.15 of the script are the doubles just below
    3/10 and 3/20, so comparing a float with them is comparing its exact
    value with 3/10 and 3/20. *)
Lemma rate_above_0_3_exact (rate : float) :
  (Lit.f0_3 <? rate)%float = true <-> float_gt_ratio rate 3 10 = true.
Proof.
  apply (@float_ltb_literal_exact Lit.f0_3 rate 5404319552844595 (-54) 3 10);
    [reflexivity|lia|lia|lia|].
  change (2 ^ (- -54)) with 18014398509481984. lia.
Qed.

Lemma rate_above_0_15_exact (rate : float) :
  (Lit.f0_15 <? rate)%float = true <-> float_gt_ratio rate 3 20 = true.
Proof.
  apply (@float_ltb_literal_exact Lit.f0_15 rate 5404319552844595 (-55) 3 20);
    [reflexivity|lia|lia|lia|].
  change (2 ^ (- -55)) with 36028797018963968. lia.
Qed.

(** [float_max a b] is the greater of the two in the order of floats. *)
Lemma float_max_spec (a b : float) :
  (a <=? a)%float = true ->
  (float_max a b = a \/ float_max a b = b)
  /\ (a <=? float_max a b)%float = true
  /\ (float_max a b <? b)%float = false.
Proof.
  intros Ha. pose proof (float_max_floor b Ha) as Hfloor.
  unfold float_max in *.
  destruct (a <? b)%float eqn:Hab.
  - split; [right; reflexivity|]. split; [exact Hfloor|].
    rewrite ltb_spec. unfold SFltb.
    rewrite SFcompare_refl; [reflexivity|].
    intros Hnan. rewrite ltb_spec, Hnan in Hab. unfold SFltb in Hab.
    destruct (Prim2SF a); discriminate Hab.
  - split; [left; reflexivity|]. split; [exact Hfloor|exact Hab].
Qed.

(** The thresholds [length * 0.7] and [length * 0.3] of every length up to
    200, checked one by one: [high_cut] and [moderate_cut] are above them
    and the integers before are not. *)
Lemma threshold_table :
  forallb
    (fun n =>
       let length := Z.of_nat n in
       int_gt_float (high_cut length) (float_of_int length * Lit.f0_7)%float
       && negb (int_gt_float (high_cut length - 1)
                  (float_of_int length * Lit.f0_7)%float)
       && int_gt_float (moderate_cut length)
            (float_of_int length * Lit.f0_3)%float
       && negb (int_gt_float (moderate_cut length - 1)
                  (float_of_int length * Lit.f0_3)%float))
    (seq 0 201)
  = true.
Proof. vm_compute. reflexivity. Qed.

Lemma int_gt_float_cut (cut total : Z) (x : float) :
  int_gt_float cut x = true ->
  int_gt_float (cut - 1) x = false ->
  (int_gt_float total x = true <-> cut <= total).
Proof.
  intros Hat Hbelow. split.
  - intros Htotal. destruct (Z_lt_le_dec total cut) as [Hlt|Hle]; [|exact Hle].
    rewrite (@int_gt_float_mono total (cut - 1) x ltac:(lia) Htotal)
      in Hbelow.
    discriminate Hbelow.
  - intros Hle. exact (@int_gt_float_mono cut total x Hle Hat).
Qed.

Lemma thresholds_exact (length mutation_total : Z) :
  0 <= length <= 200 ->
  (int_gt_float mutation_total (float_of_int length * Lit.f0_7)%float = true
   <-> 7 * length < 10 * mutation_total
       \/ (In length rounded_down_lengths
           /\ 7 * length = 10 * mutation_total))
  /\ (int_gt_float mutation_total (float_of_int length * Lit.f0_3)%float
      = true
      <-> 3 * length < 10 * mutation_total).
Proof.
  intros Hrange.
  pose proof threshold_table as Htable. rewrite forallb_forall in Htable.
  specialize (Htable (Z.to_nat length)).
  rewrite Z2Nat.id in Htable by lia.
  specialize (Htable ltac:(apply in_seq; lia)). cbv zeta in Htable.
  rewrite !andb_true_iff, !negb_true_iff in Htable.
  destruct Htable as [[[H7 H7' ] H3] H3'].
  rewrite (@int_gt_float_cut _ mutation_total _ H7 H7').
  rewrite (@int_gt_float_cut _ mutation_total _ H3 H3').
  pose proof (Z.div_mod (7 * length) 10 ltac:(lia)) as Hd7.
  pose proof (Z.mod_pos_bound (7 * length) 10 ltac:(lia)) as Hm7.
  pose proof (Z.div_mod (3 * length) 10 ltac:(lia)) as Hd3.
  pose proof (Z.mod_pos_bound (3 * length) 10 ltac:(lia)) as Hm3.
  split; [|unfold moderate_cut; lia].
  unfold high_cut.
  destruct (existsb (Z.eqb length) rounded_down_lengths) eqn:Hex.
  - apply existsb_exists in Hex. destruct Hex as (l & Hin & Heq).
    apply Z.eqb_eq in Heq. subst l.
    assert (Hmod : (7 * length) mod 10 = 0).
    { unfold rounded_down_lengths in Hin. simpl in Hin.
      destruct Hin as [<- | [<- | [<- | []]]]; reflexivity. }
    split; [intros Hle|intros [Hgt | [_ Heq]]; lia].
    destruct (Z.eq_dec (7 * length) (10 * mutation_total)) as [Heq|Hne];
      [right; split; assumption|left; lia].
  - split; [intros Hle; left; lia|].
    intros [Hgt | [Hin _]]; [lia|].
    assert (Hyes : existsb (Z.eqb length) rounded_down_lengths = true).
    { apply existsb_exists. exists length. split; [exact Hin|].
      apply Z.eqb_refl. }
    rewrite Hyes in Hex. discriminate Hex.
Qed.

(** ** Lists and results *)

Lemma last_item_snoc {A : Type} (l : list A) (x : A) :
  last_item (l ++ [x]) = Ok x.
Proof. unfold last_item. rewrite rev_unit. reflexivity. Qed.

Lemma last_item_cons {A : Type} (x : A) (l : list A) :
  exists y, last_item (x :: l) = Ok y /\ In y (x :: l).
Proof.
  destruct (exists_last (l:=x :: l)) as [l' [y Hy]]; [discriminate|].
  exists y. rewrite Hy. split; [apply last_item_snoc|].
  apply in_or_app. right. left. reflexivity.
Qed.

(** ** The alphabet *)

Lemma over_alphabet_check (s : str) :
  forallb (fun c => existsb (Ascii.eqb c) BASES) s = true -> over_alphabet s.
Proof.
  unfold over_alphabet. rewrite forallb_forall, Forall_forall.
  intros Hall c Hc. specialize (Hall c Hc).
  apply existsb_exists in Hall. destruct Hall as (b & Hb & Heq).
  apply Ascii.eqb_eq in Heq. congruence.
Qed.

Lemma other_bases_spec (base c : ascii) :
  In c (other_bases base) <-> In c BASES /\ c <> base.
Proof.
  unfold other_bases. rewrite filter_In, negb_true_iff, Ascii.eqb_neq.
  reflexivity.
Qed.

Lemma other_bases_at_least_three (base : ascii) :
  (3 <= List.length (other_bases base))%nat.
Proof.
  unfold other_bases, BASES. cbn [filter].
  destruct (Ascii.eqb_spec "A" base) as [HA|HA];
    destruct (Ascii.eqb_spec "T" base) as [HT|HT];
    destruct (Ascii.eqb_spec "C" base) as [HC|HC];
    destruct (Ascii.eqb_spec "G" base) as [HG|HG];
    cbn [negb List.length]; try lia; congruence.
Qed.

Lemma other_bases_three (base : ascii) :
  In base BASES -> List.length (other_bases base) = 3%nat.
Proof.
  unfold BASES. simpl.
  intros [<- | [<- | [<- | [<- | []]]]]; reflexivity.
Qed.

(** ** One call of [mutate_genome] *)

Lemma mutation_of_length rate old new :
  mutation_of rate old new -> List.length new = List.length old.
Proof. intros H. symmetry. exact (Forall2_length H). Qed.

Lemma mutation_of_alphabet rate old new :
  mutation_of rate old new -> over_alphabet old -> over_alphabet new.
Proof.
  unfold mutation_of, over_alphabet.
  induction 1 as [|base c old new Hstep _ IH]; intros Hold; constructor.
  - inversion Hstep as [u _ _ _ | u c' _ _ _ Hin]; subst.
    + exact (Forall_inv Hold).
    + apply other_bases_spec in Hin. tauto.
  - apply IH. exact (Forall_inv_tail Hold).
Qed.

Section ScriptFacts.
Context {G : Type} {RS : RandomSource G}.

Lemma bind_ok {A B : Type} (m : Rand G A) (k : A -> Rand G B) g a g' :
  m g = Ok (a, g') -> bind m k g = k a g'.
Proof. unfold bind. intros ->. reflexivity. Qed.

Lemma py_choice_ok {A : Type} (seq : list A) (g : G) :
  seq <> [] -> exists x g', py_choice seq g = Ok (x, g') /\ In x seq.
Proof.
  intros Hne. unfold py_choice.
  destruct seq as [|a seq']; [congruence|].
  pose proof (@randbelow_range G RS (List.length (a :: seq')) g) as Hlt.
  destruct (randbelow (List.length (a :: seq')) g) as [i g'].
  simpl fst in Hlt.
  destruct (nth_error (a :: seq') i) as [x|] eqn:Hnth.
  - exists x, g'. split; [reflexivity|]. exact (nth_error_In _ _ Hnth).
  - apply nth_error_None in Hnth. simpl in Hlt, Hnth. lia.
Qed.

Lemma mutate_loop_ok (mutation_rate : float) (rest : str) :
  forall (mutated : str) (g : G),
  exists out g',
    mutate_loop mutation_rate rest mutated g = Ok (mutated ++ out, g')
    /\ mutation_of mutation_rate rest out.
Proof.
  induction rest as [|base rest' IH]; intros mutated g.
  - exists [], g. rewrite app_nil_r. split; [reflexivity|constructor].
  - cbn [mutate_loop].
    pose proof (random_range g) as [Hlo Hhi].
    destruct (random g) as [u g1] eqn:Hu. simpl fst in Hlo, Hhi.
    erewrite bind_ok; [|unfold py_random; rewrite Hu; reflexivity].
    destruct (u <? mutation_rate)%float eqn:Hdraw.
    + destruct (py_choice_ok (seq:=other_bases base) g1) as (c & g2 & Hc & Hin).
      { pose proof (other_bases_at_least_three base) as H3.
        intros Hnil. rewrite Hnil in H3. simpl in H3. lia. }
      erewrite bind_ok; [|exact Hc].
      destruct (IH (mutated ++ [c]) g2) as (out & g' & Hrun & Hout).
      exists (c :: out), g'. rewrite Hrun, <- app_assoc. split; [reflexivity|].
      constructor; [|exact Hout].
      eapply base_replaced; eassumption.
    + destruct (IH (mutated ++ [base]) g1) as (out & g' & Hrun & Hout).
      exists (base :: out), g'. rewrite Hrun, <- app_assoc.
      split; [reflexivity|].
      constructor; [|exact Hout].
      eapply base_kept; eassumption.
Qed.

Lemma mutate_genome_ok (genome : str) (mutation_rate : float) (g : G) :
  exists out g',
    mutate_genome genome mutation_rate g = Ok (out, g')
    /\ mutation_of mutation_rate genome out.
Proof. exact (mutate_loop_ok mutation_rate genome [] g). Qed.

End ScriptFacts.

(** ** The generations of [simulate_generations] *)

Lemma diff_count_nonneg (a b : str) : 0 <= diff_count a b.
Proof. unfold diff_count. lia. Qed.

Lemma diff_count_hamming (a : str) :
  forall b : str,
    List.length a = List.length b -> diff_count a b = hamming_distance a b.
Proof.
  unfold diff_count, hamming_distance.
  induction a as [|x a IH]; intros [|y b] Hlen; try discriminate Hlen.
  - reflexivity.
  - injection Hlen as Hlen. specialize (IH b Hlen).
    cbn [List.length combine filter fst snd seq nth].
    rewrite <- seq_shift, filter_map_swap.
    destruct (negb (Ascii.eqb x y)); cbn [List.length nth];
      rewrite length_map; lia.
Qed.

Lemma rounds_from_length rate cur last hs ts :
  rounds_from rate cur last hs ts -> List.length ts = List.length hs.
Proof. induction 1; simpl; congruence. Qed.

Lemma rounds_from_step rate cur last hs ts :
  rounds_from rate cur last hs ts ->
  forall i, (i < List.length hs)%nat ->
    mutation_of rate (nth i (cur :: hs) []) (nth (S i) (cur :: hs) [])
    /\ nth (S i) (last :: ts) 0 - nth i (last :: ts) 0
       = diff_count (nth i (cur :: hs) []) (nth (S i) (cur :: hs) []).
Proof.
  induction 1 as [|cur last new hs ts Hmut _ IH]; intros i Hi.
  - simpl in Hi. lia.
  - destruct i as [|i].
    + cbn [nth]. split; [exact Hmut|lia].
    + simpl in Hi. apply (IH i). lia.
Qed.

Lemma rounds_from_alphabet rate cur last hs ts :
  rounds_from rate cur last hs ts ->
  over_alphabet cur -> Forall over_alphabet hs.
Proof.
  induction 1 as [|cur last new hs ts Hmut _ IH]; intros Hcur; constructor.
  - exact (mutation_of_alphabet Hmut Hcur).
  - apply IH. exact (mutation_of_alphabet Hmut Hcur).
Qed.

Lemma nondecreasing_adjacent (l : list Z) :
  (forall i, (S i < List.length l)%nat -> nth i l 0 <= nth (S i) l 0) ->
  nondecreasing l.
Proof.
  intros Hadj i j [Hij Hj].
  induction Hij as [|j Hij IH]; [lia|].
  transitivity (nth j l 0); [apply IH; lia|apply Hadj; exact Hj].
Qed.

Lemma rounds_from_nondecreasing rate cur last hs ts :
  rounds_from rate cur last hs ts -> nondecreasing (last :: ts).
Proof.
  intros Hrounds. apply nondecreasing_adjacent. intros i Hi.
  pose proof (rounds_from_length Hrounds) as Hlen. simpl in Hi.
  destruct (rounds_from_step Hrounds (i:=i)) as [_ Hdiff]; [lia|].
  pose proof (diff_count_nonneg (nth i (cur :: hs) [])
                (nth (S i) (cur :: hs) [])).
  lia.
Qed.

Lemma rounds_from_nonneg rate cur last hs ts :
  rounds_from rate cur last hs ts -> 0 <= last -> Forall (fun t => 0 <= t) ts.
Proof.
  induction 1 as [|cur last new hs ts _ _ IH]; intros Hlast; constructor.
  - pose proof (diff_count_nonneg cur new). lia.
  - apply IH. pose proof (diff_count_nonneg cur new). lia.
Qed.

Section SimulateFacts.
Context {G : Type} {RS : RandomSource G}.

Lemma simulate_loop_ok (mutation_rate : float) (rounds : nat) :
  forall (cur : str) (genomes : list str) (mutations : list Z) (last : Z)
         (g : G),
    last_item mutations = Ok last ->
    exists hs ts g',
      simulate_loop rounds mutation_rate cur genomes mutations g
      = Ok ((genomes ++ hs, mutations ++ ts), g')
      /\ rounds_from mutation_rate cur last hs ts
      /\ List.length hs = rounds.
Proof.
  induction rounds as [|rounds IH]; intros cur genomes mutations last g Hlast.
  - exists [], [], g. rewrite !app_nil_r.
    split; [reflexivity|]. split; [constructor|reflexivity].
  - cbn [simulate_loop].
    destruct (mutate_genome_ok cur mutation_rate g) as (new & g1 & Hnew & Hmut).
    erewrite bind_ok; [|exact Hnew].
    erewrite bind_ok; [|unfold lift; rewrite Hlast; reflexivity].
    destruct (@IH new (genomes ++ [new])
                (mutations ++ [last + diff_count cur new])
                (last + diff_count cur new) g1)
      as (hs & ts & g' & Hrun & Hrounds & Hlen);
      [apply last_item_snoc|].
    exists (new :: hs), ((last + diff_count cur new) :: ts), g'.
    rewrite Hrun, <- !app_assoc.
    split; [reflexivity|]. split; [|simpl; congruence].
    constructor; assumption.
Qed.

Lemma simulate_generations_ok (initial : str) (generations : Z)
    (mutation_rate : float) (g : G) :
  exists hs ts g',
    simulate_generations initial generations mutation_rate g
    = Ok ((initial :: hs, 0 :: ts), g')
    /\ rounds_from mutation_rate initial 0 hs ts
    /\ List.length hs = Z.to_nat generations.
Proof.
  unfold simulate_generations.
  destruct (@simulate_loop_ok mutation_rate (Z.to_nat generations) initial
              [initial] [0] 0 g)
    as (hs & ts & g' & Hrun & Hrounds & Hlen); [reflexivity|].
  exists hs, ts, g'. split; [exact Hrun|]. split; assumption.
Qed.

(** [simulate_generations] with a negative [generations] leaves the loop
    at once. *)
Lemma simulate_generations_nonpositive (initial : str) (generations : Z)
    (mutation_rate : float) (g : G) :
  generations <= 0 ->
  simulate_generations initial generations mutation_rate g
  = Ok (([initial], [0]), g).
Proof.
  intros Hneg. unfold simulate_generations.
  replace (Z.to_nat generations) with O by lia. reflexivity.
Qed.

End SimulateFacts.

(** ** The run after precautions *)

Lemma decay_from_nth step current ds :
  decay_from step current ds ->
  forall i, (i < List.length ds)%nat ->
    nth i ds 0 = Z.max 0 (nth i (current :: ds) 0 - step).
Proof.
  revert current.
  induction ds as [|d ds IH]; intros current Hdecay i Hi; simpl in Hi; [lia|].
  destruct Hdecay as [Hd Hrest].
  destruct i as [|i]; [exact Hd|].
  cbn [nth]. apply (IH d Hrest). lia.
Qed.

Lemma decay_from_nonneg step current ds :
  decay_from step current ds -> Forall (fun d => 0 <= d) ds.
Proof.
  revert current.
  induction ds as [|d ds IH]; intros current Hdecay; constructor.
  - destruct Hdecay as [-> _]. lia.
  - destruct Hdecay as [_ Hrest]. exact (IH d Hrest).
Qed.

Lemma decrease_loop_ok (plateau_mutation repair_gens : Z)
    (genomes2 : list str) (held : str) (rounds : nat) :
  last_item genomes2 = Ok held ->
  (rounds = O \/ repair_gens <> 0) ->
  forall (current : Z) (dm : list Z) (dg : list str),
  exists ds,
    decrease_loop rounds plateau_mutation repair_gens genomes2 current dm dg
    = Ok (dm ++ ds, dg ++ repeat held rounds)
    /\ List.length ds = rounds
    /\ decay_from (Z.max 1 (plateau_mutation / repair_gens)) current ds.
Proof.
  intros Hheld.
  induction rounds as [|rounds IH]; intros Hdiv current dm dg.
  - exists []. rewrite !app_nil_r. repeat split.
  - assert (Hnz : repair_gens <> 0)
      by (destruct Hdiv; [discriminate|assumption]).
    cbn [decrease_loop]. unfold floordiv.
    destruct (Z.eqb_spec repair_gens 0) as [Hz|_]; [contradiction|].
    cbn [res_bind]. rewrite Hheld. cbn [res_bind].
    set (step := Z.max 1 (plateau_mutation / repair_gens)).
    destruct (IH (or_intror Hnz) (Z.max 0 (current - step))
                (dm ++ [Z.max 0 (current - step)]) (dg ++ [held]))
      as (ds & Hrun & Hlen & Hdecay).
    exists (Z.max 0 (current - step) :: ds).
    rewrite Hrun, <- !app_assoc. cbn [repeat app].
    split; [reflexivity|]. split; [simpl; congruence|].
    split; [reflexivity|exact Hdecay].
Qed.

Section AfterPrecautionFacts.
Context {G : Type} {RS : RandomSource G}.

Lemma simulate_after_precaution_ok (initial : str) (generations : Z)
    (new_mutation_rate : float) (g : G) :
  exists r g',
    simulate_after_precaution initial generations new_mutation_rate g
    = Ok (r, g')
    /\ adjusted_ok initial generations new_mutation_rate r.
Proof.
  unfold simulate_after_precaution.
  set (plateau_gens := generations / 2).
  set (repair_gens := generations - plateau_gens).
  destruct (simulate_generations_ok initial plateau_gens new_mutation_rate g)
    as (hs & ts & g' & Hrun & Hrounds & Hlen).
  erewrite bind_ok; [|exact Hrun]. cbv beta iota.
  destruct (last_item_cons 0 ts) as (peak & Hpeak & _).
  destruct (last_item_cons initial hs) as (held & Hheld & _).
  erewrite bind_ok; [|unfold lift; rewrite Hpeak; reflexivity].
  erewrite bind_ok; [|unfold lift; rewrite Hheld; reflexivity].
  rewrite repeat_length.
  set (rounds :=
         Z.to_nat (repair_gens - Z.of_nat (Z.to_nat (repair_gens / 2)))).
  destruct (@decrease_loop_ok peak repair_gens (initial :: hs) held rounds
              Hheld) with (current := peak) (dm := @nil Z) (dg := @nil str)
    as (ds & Hloop & Hds & Hdecay).
  { destruct (Z.eq_dec repair_gens 0) as [Hz|Hnz]; [left|right; exact Hnz].
    unfold rounds. rewrite Hz. reflexivity. }
  erewrite bind_ok; [|unfold lift; rewrite Hloop; reflexivity].
  cbv beta iota. cbn [app].
  eexists. exists g'. split; [reflexivity|].
  apply adjusted_ok_intro with (hs := hs) (ts := ts) (held := held)
                               (peak := peak); cbn;
    try reflexivity; try assumption.
  - rewrite Hds. reflexivity.
Qed.

End AfterPrecautionFacts.

(** ** One click on "Run Simulation" *)

Section RunFacts.
Context {G : Type} {RS : RandomSource G}.

Lemma py_choices_loop_ok {A : Type} (population : list A) (k : nat) :
  population <> [] ->
  forall g : G,
  exists xs g',
    py_choices_loop population k g = Ok (xs, g')
    /\ List.length xs = k
    /\ Forall (fun x => In x population) xs.
Proof.
  intros Hne.
  induction k as [|k IH]; intros g.
  - exists [], g. repeat split. constructor.
  - cbn [py_choices_loop].
    destruct (py_choice_ok g Hne) as (x & g1 & Hx & Hin).
    destruct (IH g1) as (xs & g' & Hxs & Hlen & Hall).
    erewrite bind_ok; [|exact Hx].
    erewrite bind_ok; [|exact Hxs].
    exists (x :: xs), g'. split; [reflexivity|].
    split; [simpl; congruence|]. constructor; assumption.
Qed.

Lemma generate_genome_ok (length : Z) (g : G) :
  exists genome g',
    generate_genome length g = Ok (genome, g')
    /\ List.length genome = Z.to_nat length
    /\ over_alphabet genome.
Proof.
  unfold generate_genome, py_choices.
  apply py_choices_loop_ok. discriminate.
Qed.

Lemma run_simulation_ok (length : Z) (mutation_rate : float)
    (generations : Z) (g : G) :
  exists out g',
    run_simulation length mutation_rate generations g = Ok (out, g')
    /\ simulation_ok length mutation_rate generations out.
Proof.
  unfold run_simulation.
  destruct (generate_genome_ok length g) as (initial & g1 & Hgen & Hlen & Hal).
  erewrite bind_ok; [|exact Hgen].
  destruct (simulate_generations_ok initial generations mutation_rate g1)
    as (hs & ts & g2 & Hrun & Hrounds & Hhs).
  erewrite bind_ok; [|exact Hrun]. cbv beta iota.
  destruct (last_item_cons 0 ts) as (total & Htotal & _).
  erewrite bind_ok; [|unfold lift; rewrite Htotal; reflexivity].
  destruct (precaution total mutation_rate length) as [tier new_rate] eqn:Htier.
  destruct (rate_changed new_rate mutation_rate) eqn:Hchanged.
  - destruct (simulate_after_precaution_ok initial generations new_rate g2)
      as (r & g3 & Hadj & Hr).
    erewrite bind_ok; [|exact Hadj].
    eexists. exists g3. split; [reflexivity|].
    apply simulation_ok_intro with (hs := hs) (ts := ts) (total := total);
      cbn; auto.
  - eexists. exists g2. split; [reflexivity|].
    apply simulation_ok_intro with (hs := hs) (ts := ts) (total := total);
      cbn; auto.
Qed.

End RunFacts.

(** ** The segments of the run after precautions *)

(** The lengths of the three segments. *)
Lemma adjusted_ok_lengths initial generations rate r :
  adjusted_ok initial generations rate r ->
  0 <= generations ->
  let plateau_gens := generations / 2 in
  let repair_gens := generations - plateau_gens in
  Z.of_nat (List.length (genomes2 r)) = plateau_gens + 1
  /\ Z.of_nat (List.length (mutations2 r)) = plateau_gens + 1
  /\ Z.of_nat (List.length (plateau_genomes r)) = repair_gens / 2
  /\ Z.of_nat (List.length (plateau_mutations r)) = repair_gens / 2
  /\ Z.of_nat (List.length (decrease_genomes r))
     = repair_gens - repair_gens / 2
  /\ Z.of_nat (List.length (decrease_mutations r))
     = repair_gens - repair_gens / 2.
Proof.
  intros [hs ts held peak Hg Hm Hrounds Hhs _ _ Hpg Hpm Hdg Hdm _] Hgen.
  cbv zeta.
  pose proof (rounds_from_length Hrounds) as Hts.
  assert (H2 : 0 <= generations / 2 <= generations).
  { split; [apply Z.div_pos; lia|].
    apply Z.div_le_upper_bound; lia. }
  assert (H4 : 0 <= (generations - generations / 2) / 2
               <= generations - generations / 2).
  { split; [apply Z.div_pos; lia|].
    apply Z.div_le_upper_bound; lia. }
  rewrite Hg, Hm, Hpg, Hpm, Hdg, !repeat_length, Hdm.
  cbn [List.length]. repeat split; lia.
Qed.

(** ** The precaution tier *)

Lemma precaution_cases (mutation_total : Z) (rate : float) (length : Z) :
  let high :=
    int_gt_float mutation_total (float_of_int length * Lit.f0_7)%float
    || (Lit.f0_3 <? rate)%float in
  let moderate :=
    int_gt_float mutation_total (float_of_int length * Lit.f0_3)%float
    || (Lit.f0_15 <? rate)%float in
  precaution mutation_total rate length
  = if high then (High, float_max Lit.f0_01 (rate * Lit.f0_5)%float)
    else if moderate
         then (Moderate, float_max Lit.f0_01 (rate * Lit.f0_7)%float)
         else (Low, rate).
Proof. reflexivity. Qed.

Lemma last_item_In {A : Type} (l : list A) (x : A) :
  last_item l = Ok x -> In x l.
Proof.
  unfold last_item. destruct (rev l) as [|y r] eqn:Hrev; [discriminate|].
  intros [= <-]. apply in_rev. rewrite Hrev. left. reflexivity.
Qed.

Lemma Forall_repeat {A : Type} (P : A -> Prop) (x : A) (n : nat) :
  P x -> Forall P (repeat x n).
Proof.
  intros Hx. apply Forall_forall. intros y Hy.
  rewrite (repeat_spec n x y Hy). exact Hx.
Qed.

Lemma adjusted_ok_nonneg initial generations rate r :
  adjusted_ok initial generations rate r ->
  Forall (fun t => 0 <= t) (all_mutations2 r).
Proof.
  intros [hs ts held peak _ Hm Hrounds _ _ Hpeak _ Hpm _ _ Hdecay].
  assert (Hactive : Forall (fun t => 0 <= t) (mutations2 r)).
  { rewrite Hm. constructor; [lia|].
    apply (rounds_from_nonneg Hrounds). lia. }
  unfold all_mutations2. rewrite !Forall_app. repeat split.
  - exact Hactive.
  - rewrite Hpm. apply Forall_repeat.
    exact (proj1 (Forall_forall _ _) Hactive peak (last_item_In _ Hpeak)).
  - exact (decay_from_nonneg _ _ _ Hdecay).
Qed.

Lemma adjusted_ok_alphabet initial generations rate r :
  adjusted_ok initial generations rate r ->
  over_alphabet initial ->
  Forall over_alphabet (all_genomes2 r).
Proof.
  intros [hs ts held peak Hg _ Hrounds _ Hheld _ Hpg _ Hdg _ _] Hinit.
  assert (Hactive : Forall over_alphabet (genomes2 r)).
  { rewrite Hg. constructor; [exact Hinit|].
    exact (rounds_from_alphabet Hrounds Hinit). }
  assert (Hover : over_alphabet held).
  { exact (proj1 (Forall_forall _ _) Hactive held (last_item_In _ Hheld)). }
  unfold all_genomes2. rewrite !Forall_app. repeat split.
  - exact Hactive.
  - rewrite Hpg. apply Forall_repeat. exact Hover.
  - rewrite Hdg. apply Forall_repeat. exact Hover.
Qed.

(** The decay loop raises as soon as it runs with [repair_gens = 0]. *)
Lemma decrease_loop_zero_divisor (rounds : nat) (plateau_mutation : Z)
    (genomes2 : list str) (current : Z) (dm : list Z) (dg : list str) :
  decrease_loop (S rounds) plateau_mutation 0 genomes2 current dm dg
  = Raise ZeroDivisionError.
Proof. reflexivity. Qed.

(** ** Arguments outside their ranges *)

Lemma float_not_below_negative (rate u : float) :
  (rate <? 0)%float = true -> (0 <=? u)%float = true ->
  (u <? rate)%float = false.
Proof.
  rewrite !ltb_spec, leb_spec.
  change (Prim2SF 0) with (S754_zero false).
  destruct (Prim2SF rate) as [s | s | | s m e];
    destruct (Prim2SF u) as [s' | s' | | s' m' e'];
    try destruct s; try destruct s'; cbn; congruence.
Qed.

Lemma SFltb_through_positive (a c : spec_float) (m : positive) (e : Z) :
  SFltb a (S754_finite false m e) = true ->
  SFltb (S754_finite false m e) c = true ->
  SFltb a c = true.
Proof.
  unfold SFltb.
  destruct a as [sa | sa | | sa ma ea]; destruct c as [sc | sc | | sc mc ec];
    try destruct sa; try destruct sc; cbn; try congruence.
  change (PosDef.Pos.compare_cont Eq ma m) with (Pos.compare ma m).
  change (PosDef.Pos.compare_cont Eq m mc) with (Pos.compare m mc).
  change (PosDef.Pos.compare_cont Eq ma mc) with (Pos.compare ma mc).
  destruct (Z.compare_spec ea e) as [Ha | Ha | Ha];
    destruct (Z.compare_spec e ec) as [Hc | Hc | Hc];
    try congruence; intros Hlow Hhigh;
    destruct (Z.compare_spec ea ec) as [Hac | Hac | Hac];
    try reflexivity; try lia.
  destruct (Pos.compare_spec ma m); try discriminate Hlow.
  destruct (Pos.compare_spec m mc); try discriminate Hhigh.
  destruct (Pos.compare_spec ma mc); try reflexivity; lia.
Qed.

Lemma float_below_above_one (rate u : float) :
  (1 <? rate)%float = true -> (u <? 1)%float = true ->
  (u <? rate)%float = true.
Proof.
  rewrite !ltb_spec.
  replace (Prim2SF 1) with (S754_finite false 4503599627370496 (-52))
    by (vm_compute; reflexivity).
  intros Hrate Hu. exact (SFltb_through_positive _ _ _ _ Hu Hrate).
Qed.

Section OutOfRange.
Context {G : Type} {RS : RandomSource G}.

Lemma mutate_genome_negative_rate (genome : str) (rate : float) (g : G) :
  (rate <? 0)%float = true ->
  exists g', mutate_genome genome rate g = Ok (genome, g').
Proof.
  intros Hrate.
  destruct (mutate_genome_ok genome rate g) as (out & g' & Hrun & Hmut).
  assert (Hsame : out = genome).
  { clear Hrun. unfold mutation_of in Hmut.
    induction Hmut as [|base c old new Hstep _ IH]; [reflexivity|].
    f_equal; [|exact IH].
    inversion Hstep as [u _ _ _ | u c' Hlo _ Hdraw _]; subst; [reflexivity|].
    rewrite (float_not_below_negative Hrate Hlo) in Hdraw.
    discriminate Hdraw. }
  exists g'. rewrite Hrun, Hsame. reflexivity.
Qed.

Lemma mutate_genome_rate_above_one (genome : str) (rate : float) (g : G) :
  (1 <? rate)%float = true ->
  exists out g',
    mutate_genome genome rate g = Ok (out, g')
    /\ Forall2 (fun base c => c <> base /\ In c BASES) genome out.
Proof.
  intros Hrate.
  destruct (mutate_genome_ok genome rate g) as (out & g' & Hrun & Hmut).
  exists out, g'. split; [exact Hrun|].
  clear Hrun. unfold mutation_of in Hmut.
  induction Hmut as [|base c old new Hstep _ IH]; constructor; [|exact IH].
  inversion Hstep as [u _ Hhi Hdraw | u c' _ _ _ Hin]; subst.
  - rewrite (float_below_above_one Hrate Hhi) in Hdraw. discriminate Hdraw.
  - apply other_bases_spec in Hin. tauto.
Qed.

End OutOfRange.

(** ** Sample inputs *)

Lemma acgt_over_alphabet : over_alphabet acgt.
Proof. apply over_alphabet_check. vm_compute. reflexivity. Qed.

(** * The properties of the specification *)

(** C1. For every initial sequence, every [generations >= 0] and every
    rate in [0,1], [simulate_generations] returns a history of
    [generations + 1] sequences that starts with the initial one, and a
    trace of [generations + 1] counts that starts with 0, never decreases,
    and grows at each index [i >= 1] by the Hamming distance between the
    sequences [i - 1] and [i] of the history (which have one length). *)
Theorem simulate_generations_history_trace
    (G : Type) (RS : RandomSource G) (initial : str) (generations : Z)
    (rate : float) (g : G) :
  0 <= generations ->
  unit_rate rate ->
  exists history trace g',
    simulate_generations initial generations rate g
    = Ok ((history, trace), g')
    /\ Z.of_nat (List.length history) = generations + 1
    /\ nth_error history 0 = Some initial
    /\ Z.of_nat (List.length trace) = generations + 1
    /\ nth_error trace 0 = Some 0
    /\ nondecreasing trace
    /\ forall i : nat,
         (1 <= i)%nat -> Z.of_nat i <= generations ->
         List.length (nth (i - 1) history []) = List.length (nth i history [])
         /\ nth i trace 0 - nth (i - 1) trace 0
            = hamming_distance (nth (i - 1) history []) (nth i history []).
Proof.
  intros Hgen _.
  destruct (simulate_generations_ok initial generations rate g)
    as (hs & ts & g' & Hrun & Hrounds & Hlen).
  pose proof (rounds_from_length Hrounds) as Hts.
  exists (initial :: hs), (0 :: ts), g'.
  split; [exact Hrun|].
  split; [simpl; lia|].
  split; [reflexivity|].
  split; [simpl; lia|].
  split; [reflexivity|].
  split; [exact (rounds_from_nondecreasing Hrounds)|].
  intros i Hi Hle.
  destruct i as [|i]; [lia|].
  replace (S i - 1)%nat with i by lia.
  destruct (rounds_from_step Hrounds (i:=i)) as [Hmut Hdiff]; [lia|].
  pose proof (mutation_of_length Hmut) as Hsame.
  split; [congruence|].
  rewrite Hdiff. apply diff_count_hamming. congruence.
Qed.

Lemma simulate_generations_history_trace_witness :
  0 <= 3
  /\ unit_rate 0x1p-2%float
  /\ exists history trace g',
       simulate_generations acgt 3 0x1p-2%float draws
       = Ok ((history, trace), g')
       /\ Z.of_nat (List.length history) = 3 + 1
       /\ nth_error history 0 = Some acgt
       /\ Z.of_nat (List.length trace) = 3 + 1
       /\ nth_error trace 0 = Some 0
       /\ nondecreasing trace
       /\ forall i : nat,
            (1 <= i)%nat -> Z.of_nat i <= 3 ->
            List.length (nth (i - 1) history [])
            = List.length (nth i history [])
            /\ nth i trace 0 - nth (i - 1) trace 0
               = hamming_distance (nth (i - 1) history []) (nth i history []).
Proof.
  split; [lia|].
  split; [split; reflexivity|].
  apply (@simulate_generations_history_trace (list nat) scripted_source
           acgt 3 0x1p-2%float draws); [lia|split; reflexivity].
Defined.

(** C2. Whenever a click produces an adjusted run (the new rate differs
    from the input rate), with [generations >= 0], the active part has
    [plateau_gens + 1] entries, the plateau [repair_gens // 2] and the
    decay [repair_gens - repair_gens // 2], where
    [plateau_gens = generations // 2] and
    [repair_gens = generations - plateau_gens]; the combined history and
    the combined trace have [generations + 1] entries each, as many as the
    unadjusted run. *)
Theorem adjusted_run_length
    (G : Type) (RS : RandomSource G) (length : Z) (rate : float)
    (generations : Z) (g : G) :
  0 <= generations ->
  exists out g',
    run_simulation length rate generations g = Ok (out, g')
    /\ (rate_changed (new_mutation_rate out) rate = true
        <-> after_precaution out <> None)
    /\ forall r : adjusted_run,
         after_precaution out = Some r ->
         let plateau_gens := generations / 2 in
         let repair_gens := generations - plateau_gens in
         Z.of_nat (List.length (genomes2 r)) = plateau_gens + 1
         /\ Z.of_nat (List.length (mutations2 r)) = plateau_gens + 1
         /\ Z.of_nat (List.length (plateau_genomes r)) = repair_gens / 2
         /\ Z.of_nat (List.length (plateau_mutations r)) = repair_gens / 2
         /\ Z.of_nat (List.length (decrease_genomes r))
            = repair_gens - repair_gens / 2
         /\ Z.of_nat (List.length (decrease_mutations r))
            = repair_gens - repair_gens / 2
         /\ Z.of_nat (List.length (all_genomes2 r)) = generations + 1
         /\ Z.of_nat (List.length (all_mutations2 r)) = generations + 1
         /\ List.length (all_genomes2 r) = List.length (genomes out)
         /\ List.length (all_mutations2 r) = List.length (mutations out).
Proof.
  intros Hgen.
  destruct (run_simulation_ok length rate generations g)
    as (out & g' & Hrun & Hout).
  exists out, g'. split; [exact Hrun|].
  destruct Hout as [hs ts total _ _ Hgs Hms Hrounds Hhs _ _ Hafter].
  pose proof (rounds_from_length Hrounds) as Hts.
  split.
  - destruct (after_precaution out) as [r|].
    + split; [discriminate|tauto].
    + rewrite Hafter. split; [discriminate|congruence].
  - intros r Hr. rewrite Hr in Hafter. destruct Hafter as [_ Hadj].
    pose proof (adjusted_ok_lengths Hadj Hgen) as Hlens. cbv zeta in Hlens |- *.
    destruct Hlens as (L1 & L2 & L3 & L4 & L5 & L6).
    unfold all_genomes2, all_mutations2.
    rewrite Hgs, Hms, !length_app. cbn [List.length].
    repeat split; lia.
Qed.

Lemma adjusted_run_length_witness :
  0 <= 7
  /\ exists out g',
       run_simulation 5 0x1p-2%float 7 draws = Ok (out, g')
       /\ (rate_changed (new_mutation_rate out) 0x1p-2%float = true
           <-> after_precaution out <> None)
       /\ forall r : adjusted_run,
            after_precaution out = Some r ->
            let plateau_gens := 7 / 2 in
            let repair_gens := 7 - plateau_gens in
            Z.of_nat (List.length (genomes2 r)) = plateau_gens + 1
            /\ Z.of_nat (List.length (mutations2 r)) = plateau_gens + 1
            /\ Z.of_nat (List.length (plateau_genomes r)) = repair_gens / 2
            /\ Z.of_nat (List.length (plateau_mutations r)) = repair_gens / 2
            /\ Z.of_nat (List.length (decrease_genomes r))
               = repair_gens - repair_gens / 2
            /\ Z.of_nat (List.length (decrease_mutations r))
               = repair_gens - repair_gens / 2
            /\ Z.of_nat (List.length (all_genomes2 r)) = 7 + 1
            /\ Z.of_nat (List.length (all_mutations2 r)) = 7 + 1
            /\ List.length (all_genomes2 r) = List.length (genomes out)
            /\ List.length (all_mutations2 r) = List.length (mutations out).
Proof.
  split; [lia|].
  apply (@adjusted_run_length (list nat) scripted_source 5 0x1p-2%float 7
           draws); lia.
Defined.


(** The click of the witness above does produce an adjusted run: tier
    High (24 mutations on 5 bases), the rate halved to 0.125, an active
    part of 4 entries, a plateau of 2 and a decay of 2 in steps of
    [max(1, 5 // 4) = 1]. *)
Example run_simulation_adjusted :
  option_map
    (fun out =>
       (mutations out, level out, new_mutation_rate out,
        option_map all_mutations2 (after_precaution out)))
    (returned (run_simulation 5 0x1p-2%float 7 draws))
  = Some ([0; 5; 8; 10; 15; 17; 20; 24], High, 0x1p-3%float,
          Some [0; 0; 1; 5; 5; 5; 4; 3]).
Proof. vm_compute. reflexivity. Qed.

(** The tier and the new rate in the arithmetic of the script: binary64
    products and comparisons. *)
Lemma precaution_tier_binary64
    (mutation_total : Z) (rate : float) (length : Z) :
  unit_rate rate ->
  let high :=
    int_gt_float mutation_total (float_of_int length * Lit.f0_7)%float = true
    \/ (Lit.f0_3 <? rate)%float = true in
  let moderate :=
    int_gt_float mutation_total (float_of_int length * Lit.f0_3)%float = true
    \/ (Lit.f0_15 <? rate)%float = true in
  let tier := fst (precaution mutation_total rate length) in
  let new_rate := snd (precaution mutation_total rate length) in
  (tier = High <-> high)
  /\ (tier = Moderate <-> ~ high /\ moderate)
  /\ (tier = Low <-> ~ high /\ ~ moderate)
  /\ (tier = High -> new_rate = float_max Lit.f0_01 (rate * Lit.f0_5)%float)
  /\ (tier = Moderate ->
      new_rate = float_max Lit.f0_01 (rate * Lit.f0_7)%float)
  /\ (tier = Low -> new_rate = rate /\ rate_changed new_rate rate = false)
  /\ forall (G : Type) (RS : RandomSource G) (generations : Z) (g : G),
     exists out g',
       run_simulation length rate generations g = Ok (out, g')
       /\ (level out = Low ->
           new_mutation_rate out = rate /\ after_precaution out = None).
Proof.
  intros [Hlo _]. cbv zeta.
  assert (Hsame : rate_changed rate rate = false).
  { unfold rate_changed. rewrite (float_eqb_refl Hlo). reflexivity. }
  split; [|split; [|split; [|split; [|split; [|split]]]]].
  1-6: rewrite precaution_cases; cbv zeta;
    destruct (int_gt_float mutation_total (float_of_int length * Lit.f0_7));
    destruct (Lit.f0_3 <? rate)%float;
    destruct (int_gt_float mutation_total (float_of_int length * Lit.f0_3));
    destruct (Lit.f0_15 <? rate)%float;
    cbn [orb fst snd];
    first [ intros Ht; first [discriminate Ht | split; trivial | reflexivity]
          | intuition (try discriminate; try reflexivity) ].
  intros G RS generations g.
  destruct (run_simulation_ok length rate generations g)
    as (out & g' & Hrun & Hout).
  exists out, g'. split; [exact Hrun|]. intros Hlow.
  destruct Hout as [hs ts total _ _ _ _ _ _ _ Htier Hafter].
  assert (Hnew : new_mutation_rate out = rate).
  { rewrite precaution_cases in Htier. cbv zeta in Htier.
    rewrite Hlow in Htier.
    destruct (_ || _) in Htier; [discriminate Htier|].
    destruct (_ || _) in Htier; [discriminate Htier|].
    congruence. }
  split; [exact Hnew|].
  destruct (after_precaution out) as [r|]; [|reflexivity].
  destruct Hafter as [Hchanged _]. rewrite Hnew in Hchanged. congruence.
Qed.

(** C3, as stated, fails: the script compares the mutation total with the
    binary64 product [length * 0.7], and [90 * 0.7], [170 * 0.7] and
    [180 * 0.7] are below 63, 119 and 126.  With 63 mutations on 90 bases
    at the rate 1/16 the tier is High although 63 is not above seven
    tenths of 90 and 1/16 is not above 0.30; likewise for 119 on 170 and
    126 on 180. *)
Lemma precaution_high_at_seven_tenths :
  unit_rate 0x1p-4%float
  /\ Prim2SF 0x1p-4%float = S754_finite false 4503599627370496 (-56)
  /\ float_gt_ratio 0x1p-4%float 3 10 = false
  /\ ~ 7 * 90 < 10 * 63
  /\ (float_of_int 90 * Lit.f0_7)%float = 0x1.f7fffffffffffp+5%float
  /\ int_gt_float 63 (float_of_int 90 * Lit.f0_7)%float = true
  /\ fst (precaution 63 0x1p-4%float 90) = High
  /\ ~ 7 * 170 < 10 * 119
  /\ fst (precaution 119 0x1p-4%float 170) = High
  /\ ~ 7 * 180 < 10 * 126
  /\ fst (precaution 126 0x1p-4%float 180) = High.
Proof.
  split; [split; reflexivity|].
  repeat split; try (vm_compute; reflexivity); lia.
Qed.

(** C3, amended.  For every length from 0 to 200 and every rate in [0,1],
    the tier is, first match first: High iff the mutation total is above
    seven tenths of the length, or is exactly seven tenths of it at the
    lengths 90, 170 and 180 (where the binary64 product [length * 0.7]
    of the script is rounded below it), or the rate is above 0.30;
    otherwise Moderate iff the mutation total is above three tenths of
    the length or the rate is above 0.15; otherwise Low.  The new rate is
    [max(0.01, rate * 0.5)] for High and [max(0.01, rate * 0.7)] for
    Moderate, the product being the binary64 one and the maximum the
    greater of the two floats, and the rate itself for Low; a click whose
    tier is Low produces no adjusted run. *)
Theorem precaution_tier_exact
    (mutation_total : Z) (rate : float) (length : Z) :
  0 <= length <= 200 ->
  unit_rate rate ->
  let high :=
    7 * length < 10 * mutation_total
    \/ (In length rounded_down_lengths
        /\ 7 * length = 10 * mutation_total)
    \/ float_gt_ratio rate 3 10 = true in
  let moderate :=
    3 * length < 10 * mutation_total
    \/ float_gt_ratio rate 3 20 = true in
  let tier := fst (precaution mutation_total rate length) in
  let new_rate := snd (precaution mutation_total rate length) in
  (tier = High <-> high)
  /\ (tier = Moderate <-> ~ high /\ moderate)
  /\ (tier = Low <-> ~ high /\ ~ moderate)
  /\ (tier = High ->
      new_rate = float_max Lit.f0_01 (rate * Lit.f0_5)%float
      /\ (new_rate = Lit.f0_01 \/ new_rate = (rate * Lit.f0_5)%float)
      /\ (Lit.f0_01 <=? new_rate)%float = true
      /\ (new_rate <? rate * Lit.f0_5)%float = false)
  /\ (tier = Moderate ->
      new_rate = float_max Lit.f0_01 (rate * Lit.f0_7)%float
      /\ (new_rate = Lit.f0_01 \/ new_rate = (rate * Lit.f0_7)%float)
      /\ (Lit.f0_01 <=? new_rate)%float = true
      /\ (new_rate <? rate * Lit.f0_7)%float = false)
  /\ (tier = Low -> new_rate = rate /\ rate_changed new_rate rate = false)
  /\ forall (G : Type) (RS : RandomSource G) (generations : Z) (g : G),
     exists out g',
       run_simulation length rate generations g = Ok (out, g')
       /\ (level out = Low ->
           new_mutation_rate out = rate /\ after_precaution out = None).
Proof.
  intros Hrange Hrate. cbv zeta.
  pose proof (@precaution_tier_binary64 mutation_total rate length Hrate)
    as Hbin.
  cbv zeta in Hbin.
  destruct Hbin as (Hhigh & Hmod & Hlow & Hnh & Hnm & Hnl & Hclick).
  destruct (@thresholds_exact length mutation_total Hrange) as [E7 E3].
  pose proof (rate_above_0_3_exact rate) as R3.
  pose proof (rate_above_0_15_exact rate) as R15.
  split; [tauto|]. split; [tauto|]. split; [tauto|].
  split; [|split; [|split; [exact Hnl|exact Hclick]]].
  - intros Htier. rewrite (Hnh Htier).
    split; [reflexivity|].
    exact (@float_max_spec Lit.f0_01 (rate * Lit.f0_5)%float eq_refl).
  - intros Htier. rewrite (Hnm Htier).
    split; [reflexivity|].
    exact (@float_max_spec Lit.f0_01 (rate * Lit.f0_7)%float eq_refl).
Qed.

Lemma precaution_tier_exact_witness :
  0 <= 90 <= 200
  /\ unit_rate 0x1p-4%float
  /\ let high :=
       7 * 90 < 10 * 63
       \/ (In 90 rounded_down_lengths /\ 7 * 90 = 10 * 63)
       \/ float_gt_ratio 0x1p-4%float 3 10 = true in
     let moderate :=
       3 * 90 < 10 * 63 \/ float_gt_ratio 0x1p-4%float 3 20 = true in
     let tier := fst (precaution 63 0x1p-4%float 90) in
     let new_rate := snd (precaution 63 0x1p-4%float 90) in
     (tier = High <-> high)
     /\ (tier = Moderate <-> ~ high /\ moderate)
     /\ (tier = Low <-> ~ high /\ ~ moderate)
     /\ (tier = High ->
         new_rate = float_max Lit.f0_01 (0x1p-4 * Lit.f0_5)%float
         /\ (new_rate = Lit.f0_01 \/ new_rate = (0x1p-4 * Lit.f0_5)%float)
         /\ (Lit.f0_01 <=? new_rate)%float = true
         /\ (new_rate <? 0x1p-4 * Lit.f0_5)%float = false)
     /\ (tier = Moderate ->
         new_rate = float_max Lit.f0_01 (0x1p-4 * Lit.f0_7)%float
         /\ (new_rate = Lit.f0_01 \/ new_rate = (0x1p-4 * Lit.f0_7)%float)
         /\ (Lit.f0_01 <=? new_rate)%float = true
         /\ (new_rate <? 0x1p-4 * Lit.f0_7)%float = false)
     /\ (tier = Low ->
         new_rate = 0x1p-4%float
         /\ rate_changed new_rate 0x1p-4%float = false)
     /\ forall (G : Type) (RS : RandomSource G) (generations : Z) (g : G),
        exists out g',
          run_simulation 90 0x1p-4%float generations g = Ok (out, g')
          /\ (level out = Low ->
              new_mutation_rate out = 0x1p-4%float
              /\ after_precaution out = None).
Proof.
  split; [lia|].
  split; [split; reflexivity|].
  apply (@precaution_tier_exact 63 0x1p-4%float 90); [lia|].
  split; reflexivity.
Defined.

(** The exact reading on the slider's hundredths: the nearest double of
    [k / 100] is above the literal 0.30 exactly when [k > 30], and above
    0.15 exactly when [k > 15]. *)
Example hundredths_above_literals :
  forallb
    (fun k =>
       let rate := (float_of_int (Z.of_nat k) / 100)%float in
       Bool.eqb (Lit.f0_3 <? rate)%float (30 <? k)%nat
       && Bool.eqb (Lit.f0_15 <? rate)%float (15 <? k)%nat)
    (seq 0 101)
  = true.
Proof. vm_compute. reflexivity. Qed.

(** The three tiers on a genome of 50 bases, and a Low click. *)
Example precaution_samples :
  precaution 36 0x1p-4%float 50 = (High, 0x1p-5%float)
  /\ precaution 35 0x1p-4%float 50
     = (Moderate, (0x1p-4 * Lit.f0_7)%float)
  /\ precaution 15 0x1p-4%float 50 = (Low, 0x1p-4%float)
  /\ precaution 0 0x1p-1%float 50 = (High, 0x1p-2%float)
  /\ precaution 0 0x1p-2%float 50 = (Moderate, (0x1p-2 * Lit.f0_7)%float)
  /\ precaution 50 Lit.f0_01 50 = (High, Lit.f0_01).
Proof. vm_compute. repeat split. Qed.

Example run_simulation_low :
  option_map
    (fun out =>
       (mutations out, level out, new_mutation_rate out,
        after_precaution out))
    (returned (run_simulation 10 0x1p-4%float 1 draws))
  = Some ([0; 3], Low, 0x1p-4%float, None).
Proof. vm_compute. reflexivity. Qed.

(** The thresholds are the rounded binary64 products: [90 * 0.7] is
    [62.99999999999999], so 63 mutations on 90 bases are above it, while
    [10 * 0.7] is [7.0] and 7 mutations on 10 bases are not. *)
Example high_threshold_rounding :
  int_gt_float 63 (float_of_int 90 * Lit.f0_7)%float = true
  /\ int_gt_float 7 (float_of_int 10 * Lit.f0_7)%float = false
  /\ fst (precaution 63 0x1p-4%float 90) = High
  /\ fst (precaution 7 0x1p-4%float 10) = Moderate.
Proof. vm_compute. repeat split. Qed.

(** C4. For every sequence over the alphabet and every rate in [0,1],
    [mutate_genome] returns a sequence of the same length, and at every
    position the symbol is either kept or replaced by one of the 3
    remaining alphabet symbols, hence by a symbol different from the
    original. *)
Theorem mutate_genome_substitutes
    (G : Type) (RS : RandomSource G) (genome : str) (rate : float) (g : G) :
  over_alphabet genome ->
  unit_rate rate ->
  exists out g',
    mutate_genome genome rate g = Ok (out, g')
    /\ List.length out = List.length genome
    /\ Forall2
         (fun base c =>
            c = base
            \/ (In c (other_bases base)
                /\ List.length (other_bases base) = 3%nat
                /\ In c BASES
                /\ c <> base))
         genome out.
Proof.
  intros Halpha _.
  destruct (mutate_genome_ok genome rate g) as (out & g' & Hrun & Hmut).
  exists out, g'. split; [exact Hrun|].
  split; [exact (mutation_of_length Hmut)|].
  clear Hrun. unfold mutation_of, over_alphabet in *.
  induction Hmut as [|base c old new Hstep _ IH]; constructor.
  - inversion Hstep as [u _ _ _ | u c' _ _ _ Hin]; subst; [left; reflexivity|].
    right. pose proof (proj1 (other_bases_spec base c) Hin) as [Hc Hne].
    pose proof (other_bases_three (Forall_inv Halpha)) as H3.
    tauto.
  - apply IH. exact (Forall_inv_tail Halpha).
Qed.

Lemma mutate_genome_substitutes_witness :
  over_alphabet acgt
  /\ unit_rate 0x1p-2%float
  /\ exists out g',
       mutate_genome acgt 0x1p-2%float draws = Ok (out, g')
       /\ List.length out = List.length acgt
       /\ Forall2
            (fun base c =>
               c = base
               \/ (In c (other_bases base)
                   /\ List.length (other_bases base) = 3%nat
                   /\ In c BASES
                   /\ c <> base))
            acgt out.
Proof.
  pose proof acgt_over_alphabet as Halpha.
  split; [exact Halpha|].
  split; [split; reflexivity|].
  apply (@mutate_genome_substitutes (list nat) scripted_source acgt
           0x1p-2%float draws Halpha).
  split; reflexivity.
Defined.

Example mutate_genome_run :
  returned (mutate_genome acgt 0x1p-2%float draws)
  = Some (list_ascii_of_string "ACCCAATA").
Proof. vm_compute. reflexivity. Qed.

(** C5. At rate 0, [mutate_genome] returns its input, whatever the random
    source draws. *)
Theorem mutate_genome_rate_zero
    (G : Type) (RS : RandomSource G) (genome : str) (g : G) :
  exists g', mutate_genome genome 0%float g = Ok (genome, g').
Proof.
  destruct (mutate_genome_ok genome 0%float g) as (out & g' & Hrun & Hmut).
  assert (Hsame : out = genome).
  { clear Hrun. unfold mutation_of in Hmut.
    induction Hmut as [|base c old new Hstep _ IH]; [reflexivity|].
    f_equal; [|exact IH].
    inversion Hstep as [u _ _ _ | u c' Hlo _ Hdraw _]; subst; [reflexivity|].
    rewrite (float_not_below_zero Hlo) in Hdraw. discriminate Hdraw. }
  exists g'. rewrite Hrun, Hsame. reflexivity.
Qed.

(** C6. At rate 1, [mutate_genome] applied to a sequence over the alphabet
    returns a sequence of the same length that differs from it at every
    position, each new symbol being an alphabet symbol other than the
    original one, whatever the random source draws. *)
Theorem mutate_genome_rate_one
    (G : Type) (RS : RandomSource G) (genome : str) (g : G) :
  over_alphabet genome ->
  exists out g',
    mutate_genome genome 1%float g = Ok (out, g')
    /\ List.length out = List.length genome
    /\ Forall2 (fun base c => c <> base /\ In c BASES) genome out
    /\ forall i : nat,
         (i < List.length genome)%nat ->
         nth i out Ascii.zero <> nth i genome Ascii.zero.
Proof.
  intros _.
  destruct (mutate_genome_ok genome 1%float g) as (out & g' & Hrun & Hmut).
  exists out, g'. split; [exact Hrun|].
  split; [exact (mutation_of_length Hmut)|].
  assert (Hall : Forall2 (fun base c => c <> base /\ In c BASES) genome out).
  { clear Hrun. unfold mutation_of in Hmut.
    induction Hmut as [|base c old new Hstep _ IH]; constructor; [|exact IH].
    inversion Hstep as [u _ Hhi Hdraw | u c' _ _ _ Hin]; subst.
    - rewrite Hhi in Hdraw. discriminate Hdraw.
    - apply other_bases_spec in Hin. tauto. }
  split; [exact Hall|].
  clear Hrun Hmut. induction Hall as [|base c old new [Hne _] _ IH];
    intros i Hi; simpl in Hi; [lia|].
  destruct i as [|i]; [exact Hne|].
  cbn [nth]. apply IH. lia.
Qed.

Lemma mutate_genome_rate_one_witness :
  over_alphabet acgt
  /\ exists out g',
       mutate_genome acgt 1%float draws = Ok (out, g')
       /\ List.length out = List.length acgt
       /\ Forall2 (fun base c => c <> base /\ In c BASES) acgt out
       /\ forall i : nat,
            (i < List.length acgt)%nat ->
            nth i out Ascii.zero <> nth i acgt Ascii.zero.
Proof.
  pose proof acgt_over_alphabet as Halpha.
  split; [exact Halpha|].
  exact (@mutate_genome_rate_one (list nat) scripted_source acgt draws Halpha).
Defined.

(** C7, as stated, fails: no function of the script checks its arguments.
    [generate_genome] with a length of 0 or -5 returns the empty genome,
    [mutate_genome] with the rates 1.5 and -0.5 returns a genome, and
    [simulate_generations] with -1 generations returns the initial genome
    and the trace [[0]]; none of these calls raises. *)
Lemma invalid_arguments_are_accepted :
  generate_genome 0 draws = Ok ([], draws)
  /\ generate_genome (-5) draws = Ok ([], draws)
  /\ returned (mutate_genome acgt 0x1.8p0%float draws)
     = Some (list_ascii_of_string "GGTGTACC")
  /\ returned (mutate_genome acgt (-0x1p-1)%float draws) = Some acgt
  /\ simulate_generations acgt (-1) 0x1p-2%float draws
     = Ok (([acgt], [0]), draws)
  /\ ~ raises (generate_genome 0 draws)
  /\ ~ raises (mutate_genome acgt 0x1.8p0%float draws)
  /\ ~ raises (simulate_generations acgt (-1) 0x1p-2%float draws).
Proof.
  assert (Hmut : returned (mutate_genome acgt 0x1.8p0%float draws)
                 = Some (list_ascii_of_string "GGTGTACC"))
    by (vm_compute; reflexivity).
  repeat split; try exact Hmut; try (vm_compute; reflexivity).
  - intros [e He]. discriminate He.
  - intros [e He]. rewrite He in Hmut. discriminate Hmut.
  - intros [e He]. discriminate He.
Qed.

(** C7, amended.  No call is rejected, whatever the arguments:
    [generate_genome] returns a genome of [max(length, 0)] bases, so the
    empty one when [length <= 0]; [mutate_genome] returns a genome of the
    same length for every rate, its input when the rate is negative and a
    genome changed at every position when the rate is above 1;
    [simulate_generations] returns [max(generations, 0) + 1] genomes and
    counts, so the initial genome and [[0]] when [generations < 0]. *)
Theorem entry_points_accept_every_argument
    (G : Type) (RS : RandomSource G) (length generations : Z) (genome : str)
    (rate : float) (g : G) :
  (exists generated g',
     generate_genome length g = Ok (generated, g')
     /\ List.length generated = Z.to_nat length
     /\ (length <= 0 -> generated = [] /\ g' = g))
  /\ (exists out g',
        mutate_genome genome rate g = Ok (out, g')
        /\ List.length out = List.length genome
        /\ ((rate <? 0)%float = true -> out = genome)
        /\ ((1 <? rate)%float = true ->
            Forall2 (fun base c => c <> base /\ In c BASES) genome out))
  /\ (exists history trace g',
        simulate_generations genome generations rate g
        = Ok ((history, trace), g')
        /\ List.length history = S (Z.to_nat generations)
        /\ List.length trace = S (Z.to_nat generations)
        /\ (generations < 0 ->
            history = [genome] /\ trace = [0] /\ g' = g))
  /\ ~ raises (generate_genome length g)
  /\ ~ raises (mutate_genome genome rate g)
  /\ ~ raises (simulate_generations genome generations rate g).
Proof.
  destruct (generate_genome_ok length g) as (generated & g1 & Hgen & Hlen & _).
  destruct (mutate_genome_ok genome rate g) as (out & g2 & Hmut & Hof).
  destruct (simulate_generations_ok genome generations rate g)
    as (hs & ts & g3 & Hsim & Hrounds & Hhs).
  pose proof (rounds_from_length Hrounds) as Hts.
  split; [|split; [|split; [|split; [|split]]]].
  - exists generated, g1. split; [exact Hgen|]. split; [exact Hlen|].
    intros Hneg. revert Hgen. unfold generate_genome, py_choices.
    replace (Z.to_nat length) with O by lia.
    cbn. intros [= <- <-]. split; reflexivity.
  - exists out, g2. split; [exact Hmut|].
    split; [exact (mutation_of_length Hof)|]. split.
    + intros Hrate.
      destruct (mutate_genome_negative_rate genome g Hrate) as (g' & Hrun).
      congruence.
    + intros Hrate.
      destruct (mutate_genome_rate_above_one genome g Hrate)
        as (out' & g' & Hrun & Hall).
      congruence.
  - exists (genome :: hs), (0 :: ts), g3. split; [exact Hsim|].
    split; [simpl; congruence|]. split; [simpl; congruence|].
    intros Hneg.
    rewrite simulate_generations_nonpositive in Hsim by lia.
    injection Hsim as Hh Ht Hg. rewrite <- Hh, <- Ht, Hg. repeat split.
  - intros [e He]. congruence.
  - intros [e He]. congruence.
  - intros [e He]. congruence.
Qed.

Lemma entry_points_accept_every_argument_witness :
  (exists generated g',
     generate_genome (-5) draws = Ok (generated, g')
     /\ List.length generated = Z.to_nat (-5)
     /\ (-5 <= 0 -> generated = [] /\ g' = draws))
  /\ (exists out g',
        mutate_genome acgt (-0x1p-1)%float draws = Ok (out, g')
        /\ List.length out = List.length acgt
        /\ ((-0x1p-1 <? 0)%float = true -> out = acgt)
        /\ ((1 <? -0x1p-1)%float = true ->
            Forall2 (fun base c => c <> base /\ In c BASES) acgt out))
  /\ (exists history trace g',
        simulate_generations acgt (-1) (-0x1p-1)%float draws
        = Ok ((history, trace), g')
        /\ List.length history = S (Z.to_nat (-1))
        /\ List.length trace = S (Z.to_nat (-1))
        /\ (-1 < 0 -> history = [acgt] /\ trace = [0] /\ g' = draws))
  /\ ~ raises (generate_genome (-5) draws)
  /\ ~ raises (mutate_genome acgt (-0x1p-1)%float draws)
  /\ ~ raises (simulate_generations acgt (-1) (-0x1p-1)%float draws).
Proof.
  exact (@entry_points_accept_every_argument (list nat) scripted_source
           (-5) (-1) acgt (-0x1p-1)%float draws).
Defined.

(** C8. In the decay phase of a run after precautions, with
    [generations >= 0], there are [repair_gens - repair_gens // 2] slots;
    each count is the count before it (the plateau count for the first
    slot) less [max(1, plateau_mutation // repair_gens)], and 0 where that
    would be negative; each sequence is the last sequence of the active
    phase; and no count of the combined trace is negative. *)
Theorem decay_phase_counts
    (G : Type) (RS : RandomSource G) (initial : str) (generations : Z)
    (new_rate : float) (g : G) :
  0 <= generations ->
  exists r g' held plateau_mutation,
    simulate_after_precaution initial generations new_rate g = Ok (r, g')
    /\ last_item (genomes2 r) = Ok held
    /\ last_item (mutations2 r) = Ok plateau_mutation
    /\ let repair_gens := generations - generations / 2 in
       let step := Z.max 1 (plateau_mutation / repair_gens) in
       Z.of_nat (List.length (decrease_mutations r))
       = repair_gens - repair_gens / 2
       /\ List.length (decrease_genomes r)
          = List.length (decrease_mutations r)
       /\ (forall i : nat,
             (i < List.length (decrease_mutations r))%nat ->
             nth i (decrease_mutations r) 0
             = Z.max 0
                 (nth i (plateau_mutation :: decrease_mutations r) 0 - step))
       /\ Forall (fun s => s = held) (decrease_genomes r)
       /\ Forall (fun t => 0 <= t) (all_mutations2 r).
Proof.
  intros Hgen.
  destruct (simulate_after_precaution_ok initial generations new_rate g)
    as (r & g' & Hrun & Hadj).
  pose proof (adjusted_ok_lengths Hadj Hgen) as Hlens.
  pose proof (adjusted_ok_nonneg Hadj) as Hnonneg.
  destruct Hadj as [hs ts held peak _ _ _ _ Hheld Hpeak _ _ Hdg _ Hdecay].
  exists r, g', held, peak.
  split; [exact Hrun|]. split; [exact Hheld|]. split; [exact Hpeak|].
  cbv zeta in Hlens |- *.
  destruct Hlens as (_ & _ & _ & _ & _ & Hdm).
  split; [exact Hdm|].
  split; [rewrite Hdg; apply repeat_length|].
  split; [exact (decay_from_nth _ _ _ Hdecay)|].
  split; [rewrite Hdg; apply Forall_repeat; reflexivity|].
  exact Hnonneg.
Qed.

Lemma decay_phase_counts_witness :
  0 <= 7
  /\ exists r g' held plateau_mutation,
       simulate_after_precaution acgt 7 0x1p-1%float draws = Ok (r, g')
       /\ last_item (genomes2 r) = Ok held
       /\ last_item (mutations2 r) = Ok plateau_mutation
       /\ let repair_gens := 7 - 7 / 2 in
          let step := Z.max 1 (plateau_mutation / repair_gens) in
          Z.of_nat (List.length (decrease_mutations r))
          = repair_gens - repair_gens / 2
          /\ List.length (decrease_genomes r)
             = List.length (decrease_mutations r)
          /\ (forall i : nat,
                (i < List.length (decrease_mutations r))%nat ->
                nth i (decrease_mutations r) 0
                = Z.max 0
                    (nth i (plateau_mutation :: decrease_mutations r) 0
                     - step))
          /\ Forall (fun s => s = held) (decrease_genomes r)
          /\ Forall (fun t => 0 <= t) (all_mutations2 r).
Proof.
  split; [lia|].
  apply (@decay_phase_counts (list nat) scripted_source acgt 7 0x1p-1%float
           draws).
  lia.
Defined.

(** Three runs after precautions: a decay in steps of [16 // 4 = 4], a
    single slot that gives back all 3 mutations, and a single slot clamped
    at 0 (the plateau count is 0 and the step is 1). *)
Example simulate_after_precaution_runs :
  option_map all_mutations2
    (returned (simulate_after_precaution acgt 7 0x1p-1%float draws))
  = Some [0; 5; 9; 16; 16; 16; 12; 8]
  /\ option_map all_mutations2
       (returned (simulate_after_precaution acgt 2 0x1p-3%float draws))
     = Some [0; 3; 0]
  /\ option_map all_mutations2
       (returned (simulate_after_precaution acgt 1 0x1p-3%float draws))
     = Some [0; 0].
Proof. vm_compute. repeat split. Qed.

(** C9. When [repair_gens] is 0 or 1 the run after precautions returns:
    the plateau is empty; with [repair_gens = 0] the decay loop runs zero
    times, its division by [repair_gens] is not evaluated, and the decay
    is empty too; with [repair_gens = 1] the decay has one slot. *)
Theorem small_repair_gens_return
    (G : Type) (RS : RandomSource G) (initial : str) (generations : Z)
    (new_rate : float) (g : G) :
  let repair_gens := generations - generations / 2 in
  repair_gens = 0 \/ repair_gens = 1 ->
  exists r g',
    simulate_after_precaution initial generations new_rate g = Ok (r, g')
    /\ plateau_genomes r = []
    /\ plateau_mutations r = []
    /\ (repair_gens = 0 ->
        Z.to_nat (repair_gens - Z.of_nat (List.length (plateau_mutations r)))
        = O
        /\ decrease_genomes r = []
        /\ decrease_mutations r = []
        /\ all_genomes2 r = genomes2 r
        /\ all_mutations2 r = mutations2 r)
    /\ (repair_gens = 1 ->
        List.length (decrease_genomes r) = 1%nat
        /\ List.length (decrease_mutations r) = 1%nat)
    /\ forall rounds plateau_mutation current dm dg,
         decrease_loop (S rounds) plateau_mutation 0 (genomes2 r) current
           dm dg
         = Raise ZeroDivisionError.
Proof.
  cbv zeta. intros Hsmall.
  destruct (simulate_after_precaution_ok initial generations new_rate g)
    as (r & g' & Hrun & Hadj).
  destruct Hadj as [hs ts held peak _ _ _ _ _ _ Hpg Hpm Hdg Hdm _].
  exists r, g'. split; [exact Hrun|].
  set (repair_gens := generations - generations / 2) in *.
  assert (Hhalf : Z.to_nat (repair_gens / 2) = O).
  { destruct Hsmall as [-> | ->]; reflexivity. }
  rewrite Hhalf in Hpg, Hpm, Hdm. cbn [repeat] in Hpg, Hpm.
  split; [exact Hpg|]. split; [exact Hpm|].
  split; [|split].
  - intros Hzero. rewrite Hzero in Hdm. cbn in Hdm.
    assert (Hnil : decrease_mutations r = []).
    { destruct (decrease_mutations r); [reflexivity|discriminate Hdm]. }
    rewrite Hnil in Hdg. cbn in Hdg.
    unfold all_genomes2, all_mutations2.
    rewrite Hpm, Hpg, Hdg, Hnil, !app_nil_r, Hzero.
    repeat split.
  - intros Hone. rewrite Hone in Hdm. cbn in Hdm.
    rewrite Hdg, repeat_length. split; exact Hdm.
  - intros. apply decrease_loop_zero_divisor.
Qed.

Lemma small_repair_gens_return_witness :
  (let repair_gens := 1 - 1 / 2 in repair_gens = 0 \/ repair_gens = 1)
  /\ exists r g',
       simulate_after_precaution acgt 1 0x1p-3%float draws = Ok (r, g')
       /\ plateau_genomes r = []
       /\ plateau_mutations r = []
       /\ (1 - 1 / 2 = 0 ->
           Z.to_nat (1 - 1 / 2 - Z.of_nat (List.length (plateau_mutations r)))
           = O
           /\ decrease_genomes r = []
           /\ decrease_mutations r = []
           /\ all_genomes2 r = genomes2 r
           /\ all_mutations2 r = mutations2 r)
       /\ (1 - 1 / 2 = 1 ->
           List.length (decrease_genomes r) = 1%nat
           /\ List.length (decrease_mutations r) = 1%nat)
       /\ forall rounds plateau_mutation current dm dg,
            decrease_loop (S rounds) plateau_mutation 0 (genomes2 r) current
              dm dg
            = Raise ZeroDivisionError.
Proof.
  split; [right; reflexivity|].
  apply (@small_repair_gens_return (list nat) scripted_source acgt 1
           0x1p-3%float draws).
  right. reflexivity.
Defined.

(** Clicks with 0 and with 1 generations that call for precautions: the
    run after precautions is the initial genome alone, and the initial
    genome followed by one decay slot. *)
Example run_simulation_small :
  option_map
    (fun out =>
       (mutations out, level out,
        option_map all_mutations2 (after_precaution out),
        option_map (fun r => List.length (all_genomes2 r))
          (after_precaution out)))
    (returned (run_simulation 10 0x1p-1%float 0 draws))
  = Some ([0], High, Some [0], Some 1%nat)
  /\ option_map
       (fun out =>
          (mutations out, level out,
           option_map all_mutations2 (after_precaution out),
           option_map (fun r => List.length (all_genomes2 r))
             (after_precaution out)))
       (returned (run_simulation 10 0x1p-1%float 1 draws))
     = Some ([0; 5], High, Some [0; 0], Some 2%nat).
Proof. vm_compute. split; reflexivity. Qed.

(** C10. The alphabet is closed under the script: for every rate in [0,1]
    and every sequence over the alphabet, [mutate_genome] returns a
    sequence over the alphabet, and so is every sequence of the history of
    [simulate_generations]; a click generates a genome over the alphabet,
    and every sequence of its history and of the combined history after
    precautions is over the alphabet. *)
Theorem alphabet_closure
    (G : Type) (RS : RandomSource G) (genome : str) (rate : float)
    (length generations : Z) (g : G) :
  unit_rate rate ->
  over_alphabet genome ->
  (exists out g',
     mutate_genome genome rate g = Ok (out, g') /\ over_alphabet out)
  /\ (exists history trace g',
        simulate_generations genome generations rate g
        = Ok ((history, trace), g')
        /\ Forall over_alphabet history)
  /\ (exists out g',
        run_simulation length rate generations g = Ok (out, g')
        /\ over_alphabet (initial_genome out)
        /\ Forall over_alphabet (genomes out)
        /\ forall r : adjusted_run,
             after_precaution out = Some r ->
             Forall over_alphabet (all_genomes2 r)).
Proof.
  intros _ Halpha. split; [|split].
  - destruct (mutate_genome_ok genome rate g) as (out & g' & Hrun & Hmut).
    exists out, g'. split; [exact Hrun|].
    exact (mutation_of_alphabet Hmut Halpha).
  - destruct (simulate_generations_ok genome generations rate g)
      as (hs & ts & g' & Hrun & Hrounds & _).
    exists (genome :: hs), (0 :: ts), g'. split; [exact Hrun|].
    constructor; [exact Halpha|].
    exact (rounds_from_alphabet Hrounds Halpha).
  - destruct (run_simulation_ok length rate generations g)
      as (out & g' & Hrun & Hout).
    exists out, g'. split; [exact Hrun|].
    destruct Hout as [hs ts total _ Hinit Hgs _ Hrounds _ _ _ Hafter].
    split; [exact Hinit|]. split.
    + rewrite Hgs. constructor; [exact Hinit|].
      exact (rounds_from_alphabet Hrounds Hinit).
    + intros r Hr. rewrite Hr in Hafter. destruct Hafter as [_ Hadj].
      exact (adjusted_ok_alphabet Hadj Hinit).
Qed.

Lemma alphabet_closure_witness :
  unit_rate 0x1p-2%float
  /\ over_alphabet acgt
  /\ (exists out g',
        mutate_genome acgt 0x1p-2%float draws = Ok (out, g')
        /\ over_alphabet out)
  /\ (exists history trace g',
        simulate_generations acgt 7 0x1p-2%float draws
        = Ok ((history, trace), g')
        /\ Forall over_alphabet history)
  /\ (exists out g',
        run_simulation 5 0x1p-2%float 7 draws = Ok (out, g')
        /\ over_alphabet (initial_genome out)
        /\ Forall over_alphabet (genomes out)
        /\ forall r : adjusted_run,
             after_precaution out = Some r ->
             Forall over_alphabet (all_genomes2 r)).
Proof.
  split; [split; reflexivity|].
  split; [exact acgt_over_alphabet|].
  apply (@alphabet_closure (list nat) scripted_source acgt 0x1p-2%float 5 7
           draws); [split; reflexivity|exact acgt_over_alphabet].
Defined.

(** * Further properties of the script *)

(** ** Lengths and counts of a run *)

Lemma diff_count_le (a b : str) : diff_count a b <= Z.of_nat (List.length a).
Proof.
  unfold diff_count.
  pose proof (filter_length_le
                (fun ab : ascii * ascii => negb (Ascii.eqb (fst ab) (snd ab)))
                (combine a b)) as Hle.
  rewrite length_combine in Hle. lia.
Qed.

Lemma diff_count_zero_iff (a : str) :
  forall b : str,
    List.length a = List.length b -> (diff_count a b = 0 <-> a = b).
Proof.
  unfold diff_count.
  induction a as [|x a IH]; intros [|y b] Hlen; try discriminate Hlen.
  - split; reflexivity.
  - injection Hlen as Hlen. specialize (IH b Hlen).
    cbn [combine filter fst snd].
    destruct (Ascii.eqb_spec x y) as [<- | Hxy]; cbn [negb List.length].
    + rewrite IH. split; [intros ->; reflexivity|].
      intros [= Hab]. exact Hab.
    + split; [lia|]. intros [= Hx _]. contradiction.
Qed.

Lemma diff_count_all_differ (a b : str) :
  Forall2 (fun x y => y <> x) a b -> diff_count a b = Z.of_nat (List.length a).
Proof.
  unfold diff_count.
  induction 1 as [|x y a b Hxy _ IH]; [reflexivity|].
  cbn [combine filter fst snd].
  destruct (Ascii.eqb_spec x y) as [Heq | _]; [congruence|].
  cbn [negb List.length]. lia.
Qed.

Lemma mutation_of_rate_zero (old new : str) :
  mutation_of 0%float old new -> new = old.
Proof.
  unfold mutation_of.
  induction 1 as [|base c old new Hstep _ IH]; [reflexivity|].
  f_equal; [|exact IH].
  inversion Hstep as [u _ _ _ | u c' Hlo _ Hdraw _]; subst; [reflexivity|].
  rewrite (float_not_below_zero Hlo) in Hdraw. discriminate Hdraw.
Qed.

Lemma mutation_of_rate_one (old new : str) :
  mutation_of 1%float old new -> Forall2 (fun x y => y <> x) old new.
Proof.
  unfold mutation_of.
  induction 1 as [|base c old new Hstep _ IH]; constructor; [|exact IH].
  inversion Hstep as [u _ Hhi Hdraw | u c' _ _ _ Hin]; subst.
  - rewrite Hhi in Hdraw. discriminate Hdraw.
  - apply other_bases_spec in Hin. tauto.
Qed.

Lemma rounds_from_nth_length rate cur last hs ts :
  rounds_from rate cur last hs ts ->
  forall i, (i <= List.length hs)%nat ->
    List.length (nth i (cur :: hs) []) = List.length cur.
Proof.
  induction 1 as [|cur last new hs ts Hmut _ IH]; intros i Hi.
  - simpl in Hi. replace i with O by lia. reflexivity.
  - destruct i as [|i]; [reflexivity|].
    simpl in Hi.
    change (nth (S i) (cur :: new :: hs) []) with (nth i (new :: hs) []).
    rewrite (IH i) by lia.
    exact (mutation_of_length Hmut).
Qed.

Lemma rounds_from_same_length rate cur last hs ts :
  rounds_from rate cur last hs ts ->
  Forall (fun h => List.length h = List.length cur) hs.
Proof.
  induction 1 as [|cur last new hs ts Hmut _ IH]; constructor.
  - exact (mutation_of_length Hmut).
  - rewrite <- (mutation_of_length Hmut). exact IH.
Qed.

Lemma rounds_from_bound rate cur last hs ts :
  rounds_from rate cur last hs ts ->
  forall i, (i <= List.length hs)%nat ->
    nth i (last :: ts) 0 <= last + Z.of_nat i * Z.of_nat (List.length cur).
Proof.
  induction 1 as [|cur last new hs ts Hmut _ IH]; intros i Hi.
  - simpl in Hi. replace i with O by lia. simpl. lia.
  - destruct i as [|i]; [simpl; lia|].
    simpl in Hi. specialize (IH i ltac:(lia)).
    change (nth (S i) (last :: last + diff_count cur new :: ts) 0)
      with (nth i (last + diff_count cur new :: ts) 0).
    rewrite (mutation_of_length Hmut) in IH.
    pose proof (diff_count_le cur new). nia.
Qed.

Lemma rounds_from_rate_one cur last hs ts :
  rounds_from 1%float cur last hs ts ->
  forall i, (i <= List.length hs)%nat ->
    nth i (last :: ts) 0 = last + Z.of_nat i * Z.of_nat (List.length cur).
Proof.
  induction 1 as [|cur last new hs ts Hmut _ IH]; intros i Hi.
  - simpl in Hi. replace i with O by lia. simpl. lia.
  - destruct i as [|i]; [simpl; lia|].
    simpl in Hi.
    change (nth (S i) (last :: last + diff_count cur new :: ts) 0)
      with (nth i (last + diff_count cur new :: ts) 0).
    rewrite (IH i) by lia.
    rewrite (mutation_of_length Hmut).
    rewrite (diff_count_all_differ (mutation_of_rate_one Hmut)). nia.
Qed.

Lemma rounds_from_rate_zero cur last hs ts :
  rounds_from 0%float cur last hs ts ->
  hs = repeat cur (List.length hs) /\ ts = repeat last (List.length hs).
Proof.
  induction 1 as [|cur last new hs ts Hmut _ [IHh IHt]]; [split; reflexivity|].
  pose proof (mutation_of_rate_zero Hmut) as ->.
  assert (Hzero : diff_count cur cur = 0)
    by (apply diff_count_zero_iff; reflexivity).
  rewrite Hzero, Z.add_0_r in *.
  cbn [List.length repeat]. split; congruence.
Qed.

(** X1. Every genome a click shows has the length asked for: the
    generated genome, every genome of the run, and every genome of the run
    after precautions have [max(length, 0)] bases. *)
Theorem run_simulation_fixed_length
    (G : Type) (RS : RandomSource G) (length : Z) (rate : float)
    (generations : Z) (g : G) :
  exists out g',
    run_simulation length rate generations g = Ok (out, g')
    /\ List.length (initial_genome out) = Z.to_nat length
    /\ Forall (fun s => List.length s = Z.to_nat length) (genomes out)
    /\ forall r : adjusted_run,
         after_precaution out = Some r ->
         Forall (fun s => List.length s = Z.to_nat length) (all_genomes2 r).
Proof.
  destruct (run_simulation_ok length rate generations g)
    as (out & g' & Hrun & Hout).
  exists out, g'. split; [exact Hrun|].
  destruct Hout as [hs ts total Hlen _ Hgs _ Hrounds _ _ _ Hafter].
  split; [exact Hlen|]. split.
  - rewrite Hgs. constructor; [exact Hlen|].
    rewrite <- Hlen. exact (rounds_from_same_length Hrounds).
  - intros r Hr. rewrite Hr in Hafter. destruct Hafter as [_ Hadj].
    destruct Hadj as [hs2 ts2 held peak Hg2 _ Hrounds2 _ Hheld _ Hpg _ Hdg _ _].
    assert (Hactive : Forall (fun s => List.length s = Z.to_nat length)
                        (genomes2 r)).
    { rewrite Hg2. constructor; [exact Hlen|].
      rewrite <- Hlen. exact (rounds_from_same_length Hrounds2). }
    assert (Hh : List.length held = Z.to_nat length).
    { exact (proj1 (Forall_forall _ _) Hactive held (last_item_In _ Hheld)). }
    unfold all_genomes2. rewrite !Forall_app, Hpg, Hdg.
    repeat split; [exact Hactive| |]; apply Forall_repeat; exact Hh.
Qed.

(** X2. In a run, each count exceeds the count before it by at most the
    genome length, and equals it exactly when the genome did not change in
    that generation; so the count of generation [i] is at most [i] times
    the genome length. *)
Theorem simulate_generations_step_bounds
    (G : Type) (RS : RandomSource G) (initial : str) (generations : Z)
    (rate : float) (g : G) :
  exists history trace g',
    simulate_generations initial generations rate g
    = Ok ((history, trace), g')
    /\ forall i : nat,
         (1 <= i)%nat -> Z.of_nat i <= generations ->
         0 <= nth i trace 0 - nth (i - 1) trace 0
           <= Z.of_nat (List.length initial)
         /\ (nth i trace 0 = nth (i - 1) trace 0
             <-> nth i history [] = nth (i - 1) history [])
         /\ nth i trace 0 <= Z.of_nat i * Z.of_nat (List.length initial).
Proof.
  destruct (simulate_generations_ok initial generations rate g)
    as (hs & ts & g' & Hrun & Hrounds & Hlen).
  exists (initial :: hs), (0 :: ts), g'. split; [exact Hrun|].
  intros i Hi Hle. destruct i as [|i]; [lia|].
  replace (S i - 1)%nat with i by lia.
  destruct (rounds_from_step Hrounds (i:=i)) as [Hmut Hdiff]; [lia|].
  pose proof (rounds_from_nth_length Hrounds (i:=i) ltac:(lia)) as Hli.
  pose proof (mutation_of_length Hmut) as Hsame.
  pose proof (diff_count_nonneg (nth i (initial :: hs) [])
                (nth (S i) (initial :: hs) [])) as Hnn.
  pose proof (diff_count_le (nth i (initial :: hs) [])
                (nth (S i) (initial :: hs) [])) as Hub.
  pose proof (rounds_from_bound Hrounds (i:=S i) ltac:(lia)) as Hbound.
  split; [rewrite Hdiff; lia|]. split; [|lia].
  pose proof (diff_count_zero_iff (nth i (initial :: hs) [])
                (nth (S i) (initial :: hs) []) ltac:(congruence)) as Hiff.
  split.
  - intros Heq. symmetry. apply Hiff. lia.
  - intros Heq. symmetry in Heq. apply Hiff in Heq. lia.
Qed.

(** X3. At rate 1 every generation changes every base, so the count of
    generation [i] is exactly [i] times the genome length. *)
Theorem simulate_generations_rate_one
    (G : Type) (RS : RandomSource G) (initial : str) (generations : Z)
    (g : G) :
  exists history trace g',
    simulate_generations initial generations 1%float g
    = Ok ((history, trace), g')
    /\ forall i : nat,
         Z.of_nat i <= generations ->
         nth i trace 0 = Z.of_nat i * Z.of_nat (List.length initial).
Proof.
  destruct (simulate_generations_ok initial generations 1%float g)
    as (hs & ts & g' & Hrun & Hrounds & Hlen).
  exists (initial :: hs), (0 :: ts), g'. split; [exact Hrun|].
  intros i Hle.
  rewrite (rounds_from_rate_one Hrounds (i:=i)) by lia. lia.
Qed.

(** X4. At rate 0 a run never changes the genome: every genome of the
    history is the initial one and every count is 0. *)
Theorem simulate_generations_rate_zero
    (G : Type) (RS : RandomSource G) (initial : str) (generations : Z)
    (g : G) :
  exists g',
    simulate_generations initial generations 0%float g
    = Ok ((repeat initial (S (Z.to_nat generations)),
           repeat 0 (S (Z.to_nat generations))), g').
Proof.
  destruct (simulate_generations_ok initial generations 0%float g)
    as (hs & ts & g' & Hrun & Hrounds & Hlen).
  exists g'. rewrite Hrun.
  destruct (rounds_from_rate_zero Hrounds) as [Hh Ht].
  rewrite Hlen in Hh, Ht. cbn [repeat]. rewrite <- Hh, <- Ht. reflexivity.
Qed.

(** ** The empty genome *)

Lemma rounds_from_empty rate last hs ts :
  rounds_from rate [] last hs ts ->
  Forall (fun h => h = []) hs /\ Forall (fun t => t = last) ts.
Proof.
  remember (@nil ascii) as cur eqn:Hcur.
  induction 1 as [|cur last new hs ts Hmut _ IH]; [split; constructor|].
  subst cur. inversion Hmut. subst new.
  change (diff_count [] []) with 0 in *. rewrite Z.add_0_r in *.
  destruct (IH eq_refl) as [IHh IHt]. split; constructor; auto.
Qed.

Lemma decay_from_zero step ds :
  0 <= step -> decay_from step 0 ds -> Forall (fun d => d = 0) ds.
Proof.
  intros Hstep. induction ds as [|d ds IH]; intros Hdecay; constructor.
  - destruct Hdecay as [-> _]. lia.
  - destruct Hdecay as [Hd Hrest].
    assert (Hz : d = 0) by lia. rewrite Hz in Hrest. exact (IH Hrest).
Qed.

Section EmptyGenome.
Context {G : Type} {RS : RandomSource G}.

Lemma simulate_loop_empty (rate : float) (rounds : nat) :
  forall (gs : list str) (ms : list Z) (last : Z) (g : G),
    last_item ms = Ok last ->
    simulate_loop rounds rate [] gs ms g
    = Ok ((gs ++ repeat [] rounds, ms ++ repeat last rounds), g).
Proof.
  induction rounds as [|rounds IH]; intros gs ms last g Hlast.
  - cbn. rewrite !app_nil_r. reflexivity.
  - cbn [simulate_loop].
    erewrite bind_ok; [|reflexivity].
    erewrite bind_ok; [|unfold lift; rewrite Hlast; reflexivity].
    change (diff_count [] []) with 0. rewrite Z.add_0_r.
    rewrite (IH _ _ last g (last_item_snoc ms last)).
    rewrite <- !app_assoc. reflexivity.
Qed.

End EmptyGenome.

(** X5. On the empty genome nothing is drawn and nothing changes: a run
    returns empty genomes and zero counts and leaves the random source as
    it was, and a run after precautions holds only empty genomes and zero
    counts. *)
Theorem empty_genome_runs
    (G : Type) (RS : RandomSource G) (generations : Z) (rate : float)
    (g : G) :
  mutate_genome [] rate g = Ok ([], g)
  /\ simulate_generations [] generations rate g
     = Ok ((repeat [] (S (Z.to_nat generations)),
            repeat 0 (S (Z.to_nat generations))), g)
  /\ exists r g',
       simulate_after_precaution [] generations rate g = Ok (r, g')
       /\ Forall (fun s => s = []) (all_genomes2 r)
       /\ Forall (fun t => t = 0) (all_mutations2 r).
Proof.
  split; [reflexivity|]. split.
  - unfold simulate_generations.
    rewrite (simulate_loop_empty rate (Z.to_nat generations) [[]] [0] g
               (last := 0) eq_refl).
    reflexivity.
  - destruct (simulate_after_precaution_ok [] generations rate g)
      as (r & g' & Hrun & Hadj).
    exists r, g'. split; [exact Hrun|].
    destruct Hadj as [hs ts held peak Hg Hm Hrounds _ Hheld Hpeak Hpg Hpm
                        Hdg _ Hdecay].
    destruct (rounds_from_empty Hrounds) as [Hhs Hts].
    assert (Hactive : Forall (fun s : str => s = []) (genomes2 r)).
    { rewrite Hg. constructor; [reflexivity|exact Hhs]. }
    assert (Hcounts : Forall (fun t => t = 0) (mutations2 r)).
    { rewrite Hm. constructor; [reflexivity|exact Hts]. }
    assert (Hh : held = []).
    { exact (proj1 (Forall_forall _ _) Hactive held (last_item_In _ Hheld)). }
    assert (Hp : peak = 0).
    { exact (proj1 (Forall_forall _ _) Hcounts peak (last_item_In _ Hpeak)). }
    subst held peak.
    unfold all_genomes2, all_mutations2.
    rewrite !Forall_app, Hpg, Hpm, Hdg. repeat split;
      try assumption; try (apply Forall_repeat; reflexivity).
    apply decay_from_zero with (2 := Hdecay). lia.
Qed.

(** ** [mutate_genome] and concatenation *)

Section MutateCompose.
Context {G : Type} {RS : RandomSource G}.

Lemma mutate_loop_acc (rate : float) (rest : str) :
  forall (acc : str) (g : G),
    mutate_loop rate rest acc g
    = match mutate_loop rate rest [] g with
      | Ok (out, g') => Ok (acc ++ out, g')
      | Raise e => Raise e
      end.
Proof.
  induction rest as [|base rest IH]; intros acc g.
  - cbn. rewrite app_nil_r. reflexivity.
  - cbn [mutate_loop]. unfold bind, py_random.
    destruct (random g) as [u g1].
    destruct (u <? rate)%float.
    + destruct (py_choice (other_bases base) g1) as [[c g2]|e]; [|reflexivity].
      rewrite (IH (acc ++ [c]) g2), (IH ([] ++ [c]) g2).
      destruct (mutate_loop rate rest [] g2) as [[out g']|e]; [|reflexivity].
      rewrite <- app_assoc. reflexivity.
    + rewrite (IH (acc ++ [base]) g1), (IH ([] ++ [base]) g1).
      destruct (mutate_loop rate rest [] g1) as [[out g']|e]; [|reflexivity].
      rewrite <- app_assoc. reflexivity.
Qed.

Lemma mutate_loop_app (rate : float) (a b : str) :
  forall (acc : str) (g : G),
    mutate_loop rate (a ++ b) acc g
    = bind (mutate_loop rate a acc) (fun acc' => mutate_loop rate b acc') g.
Proof.
  induction a as [|base a IH]; intros acc g.
  - reflexivity.
  - cbn [app mutate_loop]. unfold bind, py_random.
    destruct (random g) as [u g1].
    destruct (u <? rate)%float.
    + destruct (py_choice (other_bases base) g1) as [[c g2]|e]; [|reflexivity].
      exact (IH (acc ++ [c]) g2).
    + exact (IH (acc ++ [base]) g1).
Qed.

End MutateCompose.

(** X6. [mutate_genome] works position by position: on a concatenation it
    is the mutation of the first part followed by the mutation of the
    second part with the random source as the first part left it. *)
Theorem mutate_genome_app
    (G : Type) (RS : RandomSource G) (a b : str) (rate : float) (g : G) :
  mutate_genome (a ++ b) rate g
  = bind (mutate_genome a rate)
      (fun x => bind (mutate_genome b rate) (fun y => ret (x ++ y))) g.
Proof.
  unfold mutate_genome. rewrite mutate_loop_app. unfold bind.
  destruct (mutate_loop rate a [] g) as [[x g1]|e]; [|reflexivity].
  rewrite mutate_loop_acc.
  destruct (mutate_loop rate b [] g1) as [[y g2]|e]; reflexivity.
Qed.

(** ** Longer runs extend shorter ones *)

Lemma last_cons_default {A : Type} (x d : A) (l : list A) :
  List.last (x :: l) d = List.last l x.
Proof.
  revert x d. induction l as [|y l IH]; intros x d; [reflexivity|].
  change (List.last (x :: y :: l) d) with (List.last (y :: l) d).
  rewrite (IH y d), (IH y x). reflexivity.
Qed.

Lemma last_item_last {A : Type} (x : A) (l : list A) :
  last_item (x :: l) = Ok (List.last l x).
Proof.
  revert x. induction l as [|y l IH]; intros x; [reflexivity|].
  specialize (IH y). unfold last_item in *.
  cbn [rev] in *. destruct (rev l ++ [y]) as [|z r] eqn:Hrev.
  - destruct (rev l); discriminate Hrev.
  - cbn [app]. rewrite last_cons_default. exact IH.
Qed.

Section RunsCompose.
Context {G : Type} {RS : RandomSource G}.

Lemma simulate_loop_appended (rate : float) (rounds : nat) :
  forall (cur : str) (gs : list str) (ms : list Z) (last : Z) (g : G),
    last_item ms = Ok last ->
    simulate_loop rounds rate cur gs ms g
    = match appended_rounds rounds rate cur last g with
      | Ok ((hs, ts), g') => Ok ((gs ++ hs, ms ++ ts), g')
      | Raise e => Raise e
      end.
Proof.
  induction rounds as [|rounds IH]; intros cur gs ms last g Hlast.
  - cbn. rewrite !app_nil_r. reflexivity.
  - cbn [simulate_loop appended_rounds]. unfold bind, lift.
    destruct (mutate_genome cur rate g) as [[new g1]|e]; [|reflexivity].
    rewrite Hlast.
    rewrite (IH new (gs ++ [new]) (ms ++ [last + diff_count cur new])
               (last + diff_count cur new) g1 (last_item_snoc _ _)).
    destruct (appended_rounds rounds rate new (last + diff_count cur new) g1)
      as [[[hs ts] g']|e]; [|reflexivity].
    cbn [ret fst snd]. rewrite <- !app_assoc. reflexivity.
Qed.

Lemma appended_rounds_shift (rate : float) (rounds : nat) :
  forall (cur : str) (last : Z) (g : G),
    appended_rounds rounds rate cur last g
    = match appended_rounds rounds rate cur 0 g with
      | Ok ((hs, ts), g') => Ok ((hs, List.map (Z.add last) ts), g')
      | Raise e => Raise e
      end.
Proof.
  induction rounds as [|rounds IH]; intros cur last g; [reflexivity|].
  cbn [appended_rounds]. unfold bind.
  destruct (mutate_genome cur rate g) as [[new g1]|e]; [|reflexivity].
  rewrite (IH new (last + diff_count cur new) g1).
  rewrite (IH new (0 + diff_count cur new) g1).
  destruct (appended_rounds rounds rate new 0 g1) as [[[hs ts] g']|e];
    [|reflexivity].
  cbn [ret fst snd List.map]. rewrite map_map.
  replace (last + (0 + diff_count cur new)) with (last + diff_count cur new)
    by lia.
  rewrite (map_ext (fun t => last + (0 + diff_count cur new + t))
             (Z.add (last + diff_count cur new))) by (intros t; lia).
  reflexivity.
Qed.

Lemma appended_rounds_add (rate : float) (m n : nat) :
  forall (cur : str) (last : Z) (g : G),
    appended_rounds (m + n) rate cur last g
    = match appended_rounds m rate cur last g with
      | Ok ((hs1, ts1), g1) =>
          match
            appended_rounds n rate (List.last hs1 cur) (List.last ts1 last) g1
          with
          | Ok ((hs2, ts2), g2) => Ok ((hs1 ++ hs2, ts1 ++ ts2), g2)
          | Raise e => Raise e
          end
      | Raise e => Raise e
      end.
Proof.
  induction m as [|m IH]; intros cur last g.
  - cbn [Nat.add appended_rounds ret List.last].
    destruct (appended_rounds n rate cur last g) as [[[hs2 ts2] g2]|e];
      reflexivity.
  - cbn [Nat.add appended_rounds]. unfold bind.
    destruct (mutate_genome cur rate g) as [[new g1]|e]; [|reflexivity].
    rewrite IH.
    destruct (appended_rounds m rate new (last + diff_count cur new) g1)
      as [[[hs1 ts1] g2]|e]; [|reflexivity].
    cbn [ret fst snd]. rewrite !last_cons_default.
    destruct (appended_rounds n rate (List.last hs1 new)
                (List.last ts1 (last + diff_count cur new)) g2)
      as [[[hs2 ts2] g3]|e]; reflexivity.
Qed.

End RunsCompose.

(** X7. A run of [m + n] generations is the run of [m] generations
    followed by a run of [n] generations that starts from its last genome
    with the random source as it left it: the history continues with the
    genomes of the second run, and the trace with its counts added to the
    last count of the first. *)
Theorem simulate_generations_add
    (G : Type) (RS : RandomSource G) (initial : str) (m n : Z)
    (rate : float) (g : G) :
  0 <= m ->
  0 <= n ->
  exists h1 t1 g1 c last h2 t2 g2,
    simulate_generations initial m rate g = Ok ((h1, t1), g1)
    /\ last_item h1 = Ok c
    /\ last_item t1 = Ok last
    /\ simulate_generations c n rate g1 = Ok ((h2, t2), g2)
    /\ simulate_generations initial (m + n) rate g
       = Ok ((h1 ++ tl h2, t1 ++ List.map (Z.add last) (tl t2)), g2).
Proof.
  intros Hm Hn. unfold simulate_generations.
  rewrite Z2Nat.inj_add by assumption.
  rewrite !(fun r i => @simulate_loop_appended G RS rate r i [i] [0] 0)
    by reflexivity.
  rewrite appended_rounds_add.
  destruct (simulate_generations_ok initial m rate g)
    as (hs & ts & g1 & Hrun & _ & _).
  unfold simulate_generations in Hrun.
  rewrite (@simulate_loop_appended G RS rate _ initial [initial] [0] 0)
    in Hrun by reflexivity.
  destruct (appended_rounds (Z.to_nat m) rate initial 0 g)
    as [[[hs1 ts1] g1']|e]; [|discriminate Hrun].
  clear Hrun hs ts g1.
  set (c := List.last hs1 initial). set (last := List.last ts1 0).
  destruct (simulate_generations_ok c n rate g1')
    as (hs & ts & g2 & Hrun & _ & _).
  unfold simulate_generations in Hrun.
  rewrite (@simulate_loop_appended G RS rate _ c [c] [0] 0)
    in Hrun by reflexivity.
  rewrite (appended_rounds_shift rate (Z.to_nat n) c last g1').
  destruct (appended_rounds (Z.to_nat n) rate c 0 g1')
    as [[[hs2 ts2] g2']|e] eqn:Hsecond; [|discriminate Hrun].
  exists ([initial] ++ hs1), ([0] ++ ts1), g1', c, last,
    ([c] ++ hs2), ([0] ++ ts2), g2'.
  split; [reflexivity|].
  split; [apply last_item_last|].
  split; [apply last_item_last|].
  split.
  - rewrite (@simulate_loop_appended G RS rate _ c [c] [0] 0) by reflexivity.
    rewrite Hsecond. reflexivity.
  - cbn [app tl]. reflexivity.
Qed.

Lemma simulate_generations_add_witness :
  0 <= 2
  /\ 0 <= 3
  /\ exists h1 t1 g1 c last h2 t2 g2,
       simulate_generations acgt 2 0x1p-2%float draws = Ok ((h1, t1), g1)
       /\ last_item h1 = Ok c
       /\ last_item t1 = Ok last
       /\ simulate_generations c 3 0x1p-2%float g1 = Ok ((h2, t2), g2)
       /\ simulate_generations acgt (2 + 3) 0x1p-2%float draws
          = Ok ((h1 ++ tl h2, t1 ++ List.map (Z.add last) (tl t2)), g2).
Proof.
  split; [lia|]. split; [lia|].
  apply (@simulate_generations_add (list nat) scripted_source acgt 2 3
           0x1p-2%float draws); lia.
Defined.

(** ** The shape of the trace after precautions *)

Lemma last_item_is_nth {A : Type} (l : list A) (x d : A) :
  last_item l = Ok x -> x = nth (List.length l - 1) l d.
Proof.
  destruct (rev l) as [|y r] eqn:Hrev; unfold last_item; rewrite Hrev;
    [discriminate|].
  intros [= <-].
  assert (Hl : l = rev r ++ [y]).
  { rewrite <- (rev_involutive l), Hrev. reflexivity. }
  rewrite Hl, length_app, app_nth2; simpl; [|lia].
  replace (List.length (rev r) + 1 - 1 - List.length (rev r))%nat with O
    by lia.
  reflexivity.
Qed.

Lemma last_item_app {A : Type} (l ds : list A) :
  ds <> [] -> last_item (l ++ ds) = last_item ds.
Proof.
  intros Hne. unfold last_item. rewrite rev_app_distr.
  destruct (rev ds) as [|y r] eqn:Hrev; [|reflexivity].
  apply (f_equal (@rev A)) in Hrev. rewrite rev_involutive in Hrev.
  contradiction.
Qed.

Lemma last_item_app_repeat {A : Type} (l : list A) (x : A) (k : nat) :
  last_item l = Ok x -> last_item (l ++ repeat x k) = Ok x.
Proof.
  intros Hl. destruct k as [|k]; [rewrite app_nil_r; exact Hl|].
  rewrite last_item_app by discriminate.
  cbn [repeat]. rewrite repeat_cons. apply last_item_snoc.
Qed.

Lemma nondecreasing_below_last (l : list Z) (x : Z) :
  nondecreasing l -> last_item l = Ok x -> Forall (fun t => t <= x) l.
Proof.
  intros Hnd Hlast. apply Forall_forall. intros t Ht.
  destruct (In_nth l t 0 Ht) as (i & Hi & <-).
  rewrite (last_item_is_nth l 0 Hlast). apply Hnd. lia.
Qed.

Lemma decay_from_closed step current ds :
  0 <= step ->
  decay_from step current ds ->
  forall i, (i < List.length ds)%nat ->
    nth i ds 0 = Z.max 0 (current - Z.of_nat (S i) * step).
Proof.
  intros Hstep. revert current.
  induction ds as [|d ds IH]; intros current Hdecay i Hi; simpl in Hi; [lia|].
  destruct Hdecay as [Hd Hrest].
  destruct i as [|i]; [cbn [nth]; lia|].
  change (nth (S i) (d :: ds) 0) with (nth i ds 0).
  rewrite (IH d Hrest i) by lia.
  assert (Hk : 0 <= Z.of_nat (S i) * step) by nia.
  replace (Z.of_nat (S (S i)) * step) with (step + Z.of_nat (S i) * step)
    by lia.
  lia.
Qed.

Lemma decay_from_below step current ds :
  0 <= step -> 0 <= current ->
  decay_from step current ds -> Forall (fun d => d <= current) ds.
Proof.
  intros Hstep. revert current.
  induction ds as [|d ds IH]; intros current Hcur Hdecay; constructor.
  - destruct Hdecay as [-> _]. lia.
  - destruct Hdecay as [Hd Hrest].
    assert (Hle : d <= current) by lia.
    assert (Hnn : 0 <= d) by lia.
    apply Forall_impl with (2 := IH d Hnn Hrest). intros t Ht. lia.
Qed.

(** X8. The decay after precautions has a closed form: slot [i] (from 0)
    shows [max(0, peak - (i + 1) * step)], where [peak] is the plateau
    count and [step = max(1, peak // repair_gens)]; the final count of the
    combined trace is [max(0, peak - slots * step)] for a decay of [slots]
    slots, so it is [peak] itself when there is no decay. *)
Theorem decay_closed_form
    (G : Type) (RS : RandomSource G) (initial : str) (generations : Z)
    (new_rate : float) (g : G) :
  exists r g' peak,
    simulate_after_precaution initial generations new_rate g = Ok (r, g')
    /\ last_item (mutations2 r) = Ok peak
    /\ let repair_gens := generations - generations / 2 in
       let step := Z.max 1 (peak / repair_gens) in
       let slots := List.length (decrease_mutations r) in
       (forall i : nat,
          (i < slots)%nat ->
          nth i (decrease_mutations r) 0
          = Z.max 0 (peak - Z.of_nat (S i) * step))
       /\ last_item (all_mutations2 r)
          = Ok (Z.max 0 (peak - Z.of_nat slots * step)).
Proof.
  destruct (simulate_after_precaution_ok initial generations new_rate g)
    as (r & g' & Hrun & Hadj).
  pose proof (adjusted_ok_nonneg Hadj) as Hnonneg.
  destruct Hadj as [hs ts held peak _ Hm _ _ _ Hpeak _ Hpm _ _ Hdecay].
  exists r, g', peak. split; [exact Hrun|]. split; [exact Hpeak|].
  cbv zeta.
  set (step := Z.max 1 (peak / (generations - generations / 2))) in *.
  assert (Hstep : 0 <= step) by (unfold step; lia).
  pose proof (@decay_from_closed step peak _ Hstep Hdecay) as Hclosed.
  split; [exact Hclosed|].
  unfold all_mutations2.
  destruct (decrease_mutations r) as [|d ds] eqn:Hds.
  - rewrite app_nil_r, Hpm. cbn [List.length].
    rewrite (last_item_app_repeat _ _ Hpeak). f_equal.
    assert (Hp : 0 <= peak).
    { unfold all_mutations2 in Hnonneg. rewrite !Forall_app in Hnonneg.
      destruct Hnonneg as [[Hactive _] _].
      exact (proj1 (Forall_forall _ _) Hactive peak (last_item_In _ Hpeak)). }
    lia.
  - rewrite last_item_app by discriminate.
    destruct (last_item_cons d ds) as (x & Hx & _). rewrite Hx. f_equal.
    rewrite (last_item_is_nth (d :: ds) 0 Hx).
    rewrite Hclosed by (simpl; lia).
    cbn [List.length].
    replace (S (S (List.length ds) - 1)) with (S (List.length ds)) by lia.
    reflexivity.
Qed.

(** X9. The trace after precautions peaks at the plateau: no count of the
    combined trace exceeds the last count of the active phase, every
    plateau slot shows that count, each decay slot is at most the count
    before it and strictly below it while that count is positive; and the
    last genome of the combined history is the last genome of the active
    phase. *)
Theorem adjusted_trace_shape
    (G : Type) (RS : RandomSource G) (initial : str) (generations : Z)
    (new_rate : float) (g : G) :
  exists r g' held peak,
    simulate_after_precaution initial generations new_rate g = Ok (r, g')
    /\ last_item (genomes2 r) = Ok held
    /\ last_item (mutations2 r) = Ok peak
    /\ Forall (fun t => t <= peak) (all_mutations2 r)
    /\ Forall (fun t => t = peak) (plateau_mutations r)
    /\ (forall i : nat,
          (i < List.length (decrease_mutations r))%nat ->
          let before := nth i (peak :: decrease_mutations r) 0 in
          nth i (decrease_mutations r) 0 <= before
          /\ (0 < before -> nth i (decrease_mutations r) 0 < before))
    /\ last_item (all_genomes2 r) = Ok held.
Proof.
  destruct (simulate_after_precaution_ok initial generations new_rate g)
    as (r & g' & Hrun & Hadj).
  destruct Hadj as [hs ts held peak Hg Hm Hrounds _ Hheld Hpeak Hpg Hpm Hdg
                      _ Hdecay].
  exists r, g', held, peak.
  split; [exact Hrun|]. split; [exact Hheld|]. split; [exact Hpeak|].
  set (step := Z.max 1 (peak / (generations - generations / 2))) in *.
  assert (Hstep : 1 <= step) by (unfold step; lia).
  assert (Hactive : Forall (fun t => t <= peak) (mutations2 r)).
  { apply nondecreasing_below_last; [|exact Hpeak].
    rewrite Hm. exact (rounds_from_nondecreasing Hrounds). }
  assert (Hp : 0 <= peak).
  { pose proof (rounds_from_nonneg Hrounds (Z.le_refl 0)) as Hts.
    pose proof (last_item_In _ Hpeak) as Hin. rewrite Hm in Hin.
    destruct Hin as [<- | Hin]; [lia|].
    exact (proj1 (Forall_forall _ _) Hts peak Hin). }
  split.
  { unfold all_mutations2. rewrite !Forall_app, Hpm. repeat split.
    - exact Hactive.
    - apply Forall_repeat. lia.
    - apply (@decay_from_below step); [lia|exact Hp|exact Hdecay]. }
  split; [rewrite Hpm; apply Forall_repeat; reflexivity|].
  split.
  { intros i Hi. cbv zeta.
    rewrite (decay_from_nth _ _ _ Hdecay Hi).
    assert (Hbefore : 0 <= nth i (peak :: decrease_mutations r) 0).
    { destruct i as [|i]; [exact Hp|].
      change (nth (S i) (peak :: decrease_mutations r) 0)
        with (nth i (decrease_mutations r) 0).
      apply (proj1 (Forall_forall _ _) (decay_from_nonneg _ _ _ Hdecay)).
      apply nth_In. lia. }
    lia. }
  unfold all_genomes2. rewrite Hpg, Hdg, <- app_assoc, <- repeat_app.
  apply last_item_app_repeat. exact Hheld.
Qed.

(** ** The tier and the new rate *)

(** X10. More mutations never lower the tier: with the rate and the length
    fixed, the tier of a larger mutation total is at least as severe. *)
Theorem precaution_monotone
    (mutation_total mutation_total' : Z) (rate : float) (length : Z) :
  mutation_total <= mutation_total' ->
  (tier_rank (fst (precaution mutation_total rate length))
   <= tier_rank (fst (precaution mutation_total' rate length)))%nat.
Proof.
  intros Hle. rewrite !precaution_cases. cbv zeta.
  pose proof (@int_gt_float_mono mutation_total mutation_total'
                (float_of_int length * Lit.f0_7)%float Hle) as Hhigh.
  pose proof (@int_gt_float_mono mutation_total mutation_total'
                (float_of_int length * Lit.f0_3)%float Hle) as Hmod.
  destruct (int_gt_float mutation_total (float_of_int length * Lit.f0_7));
    [rewrite (Hhigh eq_refl)|];
    destruct (int_gt_float mutation_total' (float_of_int length * Lit.f0_7));
    destruct (Lit.f0_3 <? rate)%float;
    (destruct (int_gt_float mutation_total (float_of_int length * Lit.f0_3));
     [rewrite (Hmod eq_refl)|]);
    destruct (int_gt_float mutation_total' (float_of_int length * Lit.f0_3));
    destruct (Lit.f0_15 <? rate)%float;
    cbn; lia.
Qed.

Lemma precaution_monotone_witness :
  15 <= 36
  /\ (tier_rank (fst (precaution 15 0x1p-4%float 50))
      <= tier_rank (fst (precaution 36 0x1p-4%float 50)))%nat.
Proof.
  split; [lia|].
  apply (@precaution_monotone 15 36 0x1p-4%float 50). lia.
Defined.

(** X11. Precautions never set a rate below 0.01: whenever the tier is not
    Low the new rate is at least 0.01.  At the rate 0.01 itself the new
    rate is 0.01 for every tier, so such a click never produces a run
    after precautions. *)
Theorem precaution_rate_floor
    (mutation_total : Z) (rate : float) (length : Z) :
  (fst (precaution mutation_total rate length) <> Low ->
   (Lit.f0_01 <=? snd (precaution mutation_total rate length))%float = true)
  /\ snd (precaution mutation_total Lit.f0_01 length) = Lit.f0_01
  /\ forall (G : Type) (RS : RandomSource G) (generations : Z) (g : G),
     exists out g',
       run_simulation length Lit.f0_01 generations g = Ok (out, g')
       /\ new_mutation_rate out = Lit.f0_01
       /\ after_precaution out = None.
Proof.
  assert (Hfix : forall total,
             snd (precaution total Lit.f0_01 length) = Lit.f0_01).
  { intros total. rewrite precaution_cases. cbv zeta.
    destruct (_ || _); [reflexivity|].
    destruct (_ || _); reflexivity. }
  split; [|split; [apply Hfix|]].
  - rewrite precaution_cases. cbv zeta.
    destruct (_ || _); [intros _; apply float_max_floor; reflexivity|].
    destruct (_ || _); [intros _; apply float_max_floor; reflexivity|].
    intros Hlow. contradiction Hlow. reflexivity.
  - intros G RS generations g.
    destruct (run_simulation_ok length Lit.f0_01 generations g)
      as (out & g' & Hrun & Hout).
    exists out, g'. split; [exact Hrun|].
    destruct Hout as [hs ts total _ _ _ _ _ _ _ Htier Hafter].
    assert (Hnew : new_mutation_rate out = Lit.f0_01).
    { rewrite <- (Hfix total), <- Htier. reflexivity. }
    split; [exact Hnew|].
    destruct (after_precaution out) as [r|]; [|reflexivity].
    destruct Hafter as [Hchanged _]. rewrite Hnew in Hchanged.
    discriminate Hchanged.
Qed.

(** A rate below the floor is raised by precautions: at rate 0.005 with a
    High tier the new rate is 0.01. *)
Example precaution_raises_small_rate :
  precaution 40 0x1.47ae147ae147bp-8%float 50 = (High, Lit.f0_01)
  /\ rate_changed Lit.f0_01 0x1.47ae147ae147bp-8%float = true.
Proof. vm_compute. split; reflexivity. Qed.

(** ** The lines of the "All Genomes by Generation" expander *)

Lemma format_02_width (i : nat) :
  (i < 1000)%nat ->
  List.length (format_02 i) = (line_prefix_width i - 6)%nat.
Proof.
  intros Hi.
  assert (Hall : forallb
                   (fun k =>
                      Nat.eqb (List.length (format_02 k))
                        (line_prefix_width k - 6))
                   (seq 0 1000) = true)
    by (vm_compute; reflexivity).
  rewrite forallb_forall in Hall.
  apply Nat.eqb_eq. apply Hall. apply in_seq. lia.
Qed.

Lemma genome_line_parts (i : nat) (g : str) :
  (i < 1000)%nat ->
  firstn 4 (genome_line i g) = list_ascii_of_string "Gen "
  /\ skipn (line_prefix_width i) (genome_line i g) = g
  /\ List.length (genome_line i g)
     = (line_prefix_width i + List.length g)%nat.
Proof.
  intros Hi. pose proof (format_02_width Hi) as Hw.
  unfold genome_line, line_prefix_width in *.
  destruct (i <? 100)%nat.
  - destruct (format_02 i) as [|a [|b [|c l]]]; try discriminate Hw.
    repeat split.
  - destruct (format_02 i) as [|a [|b [|c [|d l]]]]; try discriminate Hw.
    repeat split.
Qed.

Lemma enumerate_from_nth {A : Type} (l : list A) :
  forall (start i : nat) (d : A),
    (i < List.length l)%nat ->
    nth i (enumerate_from start l) (O, d) = ((start + i)%nat, nth i l d).
Proof.
  induction l as [|x l IH]; intros start i d Hi; simpl in Hi; [lia|].
  destruct i as [|i]; cbn [enumerate_from nth].
  - rewrite Nat.add_0_r. reflexivity.
  - rewrite (IH (S start) i d) by lia. f_equal. lia.
Qed.

Lemma enumerate_from_length {A : Type} (l : list A) :
  forall start, List.length (enumerate_from start l) = List.length l.
Proof.
  induction l as [|x l IH]; intros start; [reflexivity|].
  cbn [enumerate_from List.length]. rewrite IH. reflexivity.
Qed.

(** X12. The expander shows one line per genome, in order; line [i] is
    ["Gen "], the generation number on at least two digits, [": "] and
    genome [i], so the genome is the line without its first 8 characters
    up to generation 99, and without its first 9 from generation 100 on
    (up to 999). *)
Theorem genome_lines_round_trip (genomes : list str) :
  (List.length genomes <= 1000)%nat ->
  List.length (genome_lines genomes) = List.length genomes
  /\ forall i : nat,
       (i < List.length genomes)%nat ->
       let line := nth i (genome_lines genomes) [] in
       line = genome_line i (nth i genomes [])
       /\ firstn 4 line = list_ascii_of_string "Gen "
       /\ skipn (line_prefix_width i) line = nth i genomes []
       /\ List.length line
          = (line_prefix_width i + List.length (nth i genomes []))%nat.
Proof.
  intros Hlen. unfold genome_lines.
  split; [rewrite length_map; apply enumerate_from_length|].
  intros i Hi. cbv zeta.
  assert (Hline : nth i
                    (List.map (fun ig => genome_line (fst ig) (snd ig))
                       (enumerate_from 0 genomes)) []
                  = genome_line i (nth i genomes [])).
  { rewrite (nth_indep _ [] (genome_line (fst (O, @nil ascii))
                                (snd (O, @nil ascii))))
      by (rewrite length_map, enumerate_from_length; exact Hi).
    rewrite (map_nth (fun ig => genome_line (fst ig) (snd ig))).
    rewrite enumerate_from_nth by exact Hi. reflexivity. }
  rewrite Hline. split; [reflexivity|].
  apply genome_line_parts. lia.
Qed.

Lemma genome_lines_round_trip_witness :
  (List.length [acgt; acgt] <= 1000)%nat
  /\ List.length (genome_lines [acgt; acgt]) = List.length [acgt; acgt]
  /\ forall i : nat,
       (i < List.length [acgt; acgt])%nat ->
       let line := nth i (genome_lines [acgt; acgt]) [] in
       line = genome_line i (nth i [acgt; acgt] [])
       /\ firstn 4 line = list_ascii_of_string "Gen "
       /\ skipn (line_prefix_width i) line = nth i [acgt; acgt] []
       /\ List.length line
          = (line_prefix_width i + List.length (nth i [acgt; acgt] []))%nat.
Proof.
  split; [simpl; lia|].
  apply (@genome_lines_round_trip [acgt; acgt]). simpl. lia.
Defined.

Example genome_lines_sample :
  genome_lines [acgt; list_ascii_of_string "ACCCAATA"]
  = List.map list_ascii_of_string
      ["Gen 00: ACGTACGT"; "Gen 01: ACCCAATA"]%string
  /\ genome_line 7 acgt = list_ascii_of_string "Gen 07: ACGTACGT"
  /\ genome_line 42 acgt = list_ascii_of_string "Gen 42: ACGTACGT"
  /\ genome_line 100 acgt = list_ascii_of_string "Gen 100: ACGTACGT".
Proof. vm_compute. repeat split. Qed.

(** ** A decay that stops above zero *)

(** X13. With at least 3 generations, when the plateau count is at least
    [repair_gens], the decay does not reach 0: every decay count, the
    final count of the combined trace included, is at least the step
    [plateau_mutation // repair_gens], which is at least 1. *)
Theorem decay_stays_positive
    (G : Type) (RS : RandomSource G) (initial : str) (generations : Z)
    (new_rate : float) (g : G) :
  3 <= generations ->
  exists r g' peak,
    simulate_after_precaution initial generations new_rate g = Ok (r, g')
    /\ last_item (mutations2 r) = Ok peak
    /\ decrease_mutations r <> []
    /\ let repair_gens := generations - generations / 2 in
       repair_gens <= peak ->
       1 <= peak / repair_gens
       /\ Forall (fun d => peak / repair_gens <= d) (decrease_mutations r).
Proof.
  intros Hgen.
  destruct (simulate_after_precaution_ok initial generations new_rate g)
    as (r & g' & Hrun & Hadj).
  pose proof (adjusted_ok_lengths Hadj ltac:(lia)) as Hlens.
  cbv zeta in Hlens. destruct Hlens as (_ & _ & _ & _ & _ & Hslots).
  destruct Hadj as [hs ts held peak _ _ _ _ _ Hpeak _ _ _ _ Hdecay].
  exists r, g', peak. split; [exact Hrun|]. split; [exact Hpeak|].
  set (repair_gens := generations - generations / 2) in *.
  assert (Hhalf : generations / 2 * 2 <= generations
                  /\ generations < (generations / 2 + 1) * 2).
  { pose proof (Z.div_mod generations 2 ltac:(lia)).
    pose proof (Z.mod_pos_bound generations 2 ltac:(lia)). lia. }
  assert (Hr : 2 <= repair_gens) by (unfold repair_gens; lia).
  assert (Hquarter : repair_gens / 2 * 2 <= repair_gens
                     /\ 1 <= repair_gens / 2).
  { pose proof (Z.div_mod repair_gens 2 ltac:(lia)).
    pose proof (Z.mod_pos_bound repair_gens 2 ltac:(lia)). lia. }
  split.
  { intros Hnil. rewrite Hnil in Hslots. cbn in Hslots. lia. }
  cbv zeta. intros Hbig.
  assert (Hq : peak / repair_gens * repair_gens <= peak
               /\ 1 <= peak / repair_gens).
  { pose proof (Z.div_mod peak repair_gens ltac:(lia)).
    pose proof (Z.mod_pos_bound peak repair_gens ltac:(lia)).
    split; [nia|]. apply Z.div_le_lower_bound; lia. }
  split; [lia|].
  replace (Z.max 1 (peak / repair_gens)) with (peak / repair_gens)
    in Hdecay by lia.
  pose proof (@decay_from_closed (peak / repair_gens) peak _ ltac:(lia)
                Hdecay) as Hclosed.
  apply Forall_forall. intros d Hd.
  destruct (In_nth _ d 0 Hd) as (i & Hi & <-).
  rewrite Hclosed by exact Hi.
  assert (Hi' : Z.of_nat (S i) <= repair_gens - repair_gens / 2) by lia.
  nia.
Qed.

Lemma decay_stays_positive_witness :
  3 <= 7
  /\ exists r g' peak,
       simulate_after_precaution acgt 7 0x1p-1%float draws = Ok (r, g')
       /\ last_item (mutations2 r) = Ok peak
       /\ decrease_mutations r <> []
       /\ let repair_gens := 7 - 7 / 2 in
          repair_gens <= peak ->
          1 <= peak / repair_gens
          /\ Forall (fun d => peak / repair_gens <= d)
               (decrease_mutations r).
Proof.
  split; [lia|].
  apply (@decay_stays_positive (list nat) scripted_source acgt 7
           0x1p-1%float draws).
  lia.
Defined.
